(** * github-hours-querier: the hour estimation core of [utils.js]

    A shallow embedding of [estimateHours], [getBranchCommits], [getCommits]
    and [extractData], and the properties of the specification that concern
    them.

    Conventions of the embedding.
    - A JavaScript [Date] is its time value, an integer number of
      milliseconds ([Z]).
    - JavaScript numbers that hold minutes and hours are exact rationals
      ([Qc], canonical fractions, so that equal numbers are equal terms);
      rounding of IEEE doubles is not modelled.
    - An array that the code mutates lives in a store ([gmap] from
      references to contents); a promise is the result it settles to. *)

From stdpp Require Import base option list numbers strings gmap sorting.
From Stdlib Require Import QArith Qcanon.

Local Open Scope Z_scope.

(** ** Results of fallible code *)

(** What a rejected promise or a thrown exception carries. *)
Inductive error : Type :=
  | TypeError (msg : string)
  | WalkError (msg : string).

Inductive result (A : Type) : Type :=
  | Ok (a : A)
  | Err (e : error).
Arguments Ok {A} a.
Arguments Err {A} e.

Global Instance result_ret : MRet result := λ A a, Ok a.
Global Instance result_bind : MBind result := λ A B k r,
  match r with
  | Ok a => k a
  | Err e => Err e
  end.

(** ** The data of the program *)

(** [{name: commit.author().name(), email: commit.author().email()}] *)
Record Author : Type := mkAuthor {
  name : string;
  email : string;
}.

(** [commitData] of [getBranchCommits]; [author] is [null] ([None]) when
    the commit has no author. *)
Record Commit : Type := mkCommit {
  sha : string;
  date : Z;
  message : string;
  author : option Author;
}.

(** [config.since] and [config.until]: the string ['always'], a falsy value
    (nothing set), or an instant. *)
Inductive bound : Type :=
  | Always
  | Unset
  | Instant (ms : Z).

(** The [config] object. The two minute counts are integers ([parseInt] in
    the command line front end, literals in [utils.js]). *)
Record Config : Type := mkConfig {
  maxCommitDiffInMinutes : Z;
  firstCommitAdditionInMinutes : Z;
  since : bound;
  until : bound;
  mergeRequest : bool;
  emailAliases : option (gmap string string);
  branch : option string;
}.

(** The [config] literal of [utils.js]. *)
Definition config : Config :=
  {| maxCommitDiffInMinutes := 60;
     firstCommitAdditionInMinutes := 30;
     since := Always;
     until := Always;
     mergeRequest := true;
     emailAliases := Some ∅;
     branch := None |}.

(** ** Arrays *)

Module JsArray.
Section sort.
Context {A : Type} (leb : A → A → bool).

(** Put [x] in front of the first element that is not below it. *)
Fixpoint insert (x : A) (l : list A) : list A :=
  match l with
  | [] => [x]
  | y :: l' => if leb x y then x :: y :: l' else y :: insert x l'
  end.

(** A stable sort: of two elements that compare equal, the one that came
    first stays first. *)
Definition sort (l : list A) : list A := foldr insert [] l.
End sort.
End JsArray.

(** [dates.sort(function(a, b) { return a - b; })] on time values. *)
Definition sortDates (l : list Z) : list Z := JsArray.sort Z.leb l.

(** References to arrays of dates, and the store that holds them. *)
Abbreviation ref := positive (only parsing).
Abbreviation store := (gmap positive (list Z)) (only parsing).

(** ** [estimateHours] *)

Section estimateHours.
Variable cfg : Config.

Definition Qcmin (x y : Qc) : Qc := if decide (x ≤ y)%Qc then x else y.

(** [(date - lastDate) / 1000 / 60] *)
Definition diffInMinutes (lastDate date : Z) : Qc :=
  (Qc_of_Z (date - lastDate) / Qc_of_Z 1000 / Qc_of_Z 60)%Qc.

(** The body of the [_.forEach] callback, on the two variables it
    updates: [currentMinutes] and [lastDate] ([None] is [null]). *)
Definition forEachDate (st : Qc * option Z) (date : Z) : Qc * option Z :=
  let '(currentMinutes, lastDate) := st in
  match lastDate with
  | None => (currentMinutes, Some date)
  | Some last =>
      let d := diffInMinutes last date in
      if decide (d < Qc_of_Z (maxCommitDiffInMinutes cfg))%Qc
      then ((currentMinutes + d)%Qc, Some date)
      else ((currentMinutes + Qcmin d (Qc_of_Z (firstCommitAdditionInMinutes cfg)))%Qc,
            Some date)
  end.

(** Lines 78 to 94: the loop over [sortedDates] and the final division. *)
Definition hoursOfSorted (sortedDates : list Z) : Qc :=
  let '(currentMinutes, _) :=
    fold_left forEachDate sortedDates
      (Qc_of_Z (firstCommitAdditionInMinutes cfg), None) in
  (currentMinutes / Qc_of_Z 60)%Qc.

(** [estimateHours(dates)]: [dates.sort] sorts the array behind the
    reference [dates] in place and returns that same reference, so the
    store is updated at [dates]; the result is the hours and the store
    after the call. [None] only for a reference that the store does not
    hold. *)
Definition estimateHours (dates : ref) (h : store) : option (Qc * store) :=
  l ← h !! dates;
  let h' := <[dates := sortDates l]> h in
  sortedDates ← h' !! dates;
  Some (hoursOfSorted sortedDates, h').

(** The reading of the specification: minutes credited between
    consecutive timestamps of an ascending list. *)
Definition credit (d : Qc) : Qc :=
  if decide (d < Qc_of_Z (maxCommitDiffInMinutes cfg))%Qc then d
  else Qcmin d (Qc_of_Z (firstCommitAdditionInMinutes cfg)).

Fixpoint creditedMinutes (sorted : list Z) : Qc :=
  match sorted with
  | a :: (b :: _) as rest => (credit (diffInMinutes a b) + creditedMinutes rest)%Qc
  | _ => 0%Qc
  end.
End estimateHours.

(** ** Objects used as ordered maps *)

(** A JavaScript object as the code uses it: string keys with their values,
    in the order in which the keys were created. Assigning to a key that is
    already there replaces its value and leaves its place. Enumeration
    ([Object.keys], and with it [_.map], [_.reduce] and [JSON.stringify])
    gives the keys that are array indices first, in ascending order, then
    the other keys in creation order. These are the object's own
    properties; a read [o[k]] of a key that the object does not own falls
    through to [Object.prototype] ([inherited]). An assignment to the key
    ["__proto__"] stores no property; the places that can make one
    ([groupInto], [Cli.parseEmailAlias]) treat it apart. *)
Module JsObject.

(** The names that [Object.prototype] defines. *)
Definition prototypeMethods : list string :=
  ["toString"; "toLocaleString"; "valueOf"; "hasOwnProperty"; "isPrototypeOf";
   "propertyIsEnumerable"; "__defineGetter__"; "__defineSetter__";
   "__lookupGetter__"; "__lookupSetter__"].

(** [String(Object.prototype[k])], the text under which the value that a
    plain object inherits for [k] serves as a property key: the source text
    of a built-in function, or of the prototype object for ["__proto__"];
    [None] for a name that [Object.prototype] does not define. *)
Definition inherited (k : string) : option string :=
  if decide (k = "constructor") then Some "function Object() { [native code] }"
  else if decide (k = "__proto__") then Some "[object Object]"
  else if decide (k ∈ prototypeMethods)
       then Some ("function " +:+ k +:+ "() { [native code] }")
       else None.

(** The value of a decimal digit. *)
Definition digit (c : Ascii.ascii) : option N :=
  let n := Ascii.N_of_ascii c in
  if (48 <=? n)%N && (n <=? 57)%N then Some (n - 48)%N else None.

Fixpoint decimal (acc : N) (s : string) : option N :=
  match s with
  | EmptyString => Some acc
  | String c rest => d ← digit c; decimal (10 * acc + d)%N rest
  end.

(** A key is an array index when it is the canonical decimal form of an
    integer below [2^32 - 1]. *)
Definition arrayIndex (k : string) : option N :=
  match k with
  | EmptyString => None
  | String c rest =>
      if decide (Ascii.N_of_ascii c = 48%N)
      then (if decide (rest = "") then Some 0%N else None)
      else n ← decimal 0 k; if decide (n < 4294967295)%N then Some n else None
  end.

Section obj.
Context {V : Type}.

Definition t : Type := list (string * V).

(** [o[k]] *)
Fixpoint get (k : string) (o : t) : option V :=
  match o with
  | [] => None
  | (k', v) :: o' => if decide (k = k') then Some v else get k o'
  end.

(** [o[k] = v] *)
Fixpoint set (k : string) (v : V) (o : t) : t :=
  match o with
  | [] => [(k, v)]
  | (k', v') :: o' =>
      if decide (k = k') then (k, v) :: o' else (k', v') :: set k v o'
  end.

Definition keys (o : t) : list string := map fst o.

Definition isIndex (kv : string * V) : bool :=
  match arrayIndex kv.1 with
  | Some _ => true
  | None => false
  end.

Definition indexLe (kv kv' : string * V) : bool :=
  (default 0 (arrayIndex kv.1) <=? default 0 (arrayIndex kv'.1))%N.

(** The properties in enumeration order. *)
Definition entries (o : t) : list (string * V) :=
  JsArray.sort indexLe (List.filter isIndex o)
  ++ List.filter (λ kv, negb (isIndex kv)) o.
End obj.
Arguments t : clear implicits.
End JsObject.

(** ** lodash *)

Section lodash.
Context {A : Type}.

(** [_.uniq(array, iteratee)]: an element is kept when the value the
    iteratee gives for it has not been seen on an earlier element. *)
Fixpoint uniqFrom {K : Type} `{EqDecision K}
    (iteratee : A → K) (seen : list K) (l : list A) : list A :=
  match l with
  | [] => []
  | x :: l' =>
      if decide (iteratee x ∈ seen) then uniqFrom iteratee seen l'
      else x :: uniqFrom iteratee (iteratee x :: seen) l'
  end.

Definition uniq {K : Type} `{EqDecision K} (iteratee : A → K) (l : list A) : list A :=
  uniqFrom iteratee [] l.

(** The object that [_.groupBy] fills: the groups that are its own
    properties, and the array that has taken the place of its prototype
    once a key was ["__proto__"]. *)
Record Groups : Type := mkGroups {
  own : JsObject.t (list A);
  proto : option (list A);
}.

(** One step of [_.groupBy]: [hasOwnProperty.call(result, key)] decides
    between [result[key].push(value)] and [result[key] = [value]]. For the
    key ["__proto__"] the object never owns the property, and the
    assignment makes the array [[value]] the prototype. *)
Definition groupInto (o : Groups) (key : string) (value : A) : Groups :=
  if decide (key = "__proto__") then {| own := own o; proto := Some [value] |}
  else
    {| own :=
         match JsObject.get key (own o) with
         | Some g => JsObject.set key (g ++ [value]) (own o)
         | None => JsObject.set key [value] (own o)
         end;
       proto := proto o |}.

(** [_.groupBy(collection, iteratee)] from the object [o] on; the iteratee
    may throw, which ends the grouping. *)
Fixpoint groupByFrom (iteratee : A → result string) (o : Groups)
    (l : list A) : result Groups :=
  match l with
  | [] => Ok o
  | x :: l' => key ← iteratee x; groupByFrom iteratee (groupInto o key x) l'
  end.

Definition groupBy (iteratee : A → result string) (l : list A) : result Groups :=
  groupByFrom iteratee {| own := []; proto := None |} l.

(** The iteratee gives [k] for [x]. *)
Definition keyIs (iteratee : A → result string) (k : string) (x : A) : bool :=
  match iteratee x with
  | Ok k' => bool_decide (k' = k)
  | Err _ => false
  end.

(** The group of [k] among the elements [l]: those with key [k], in
    order; no group when there is none. *)
Definition groupOf (iteratee : A → result string) (k : string) (l : list A)
    : option (list A) :=
  match List.filter (keyIs iteratee k) l with
  | [] => None
  | g => Some g
  end.

(** What [_.groupBy] has made of the elements [l]. *)
Definition grouped (iteratee : A → result string) (o : Groups) (l : list A) : Prop :=
  NoDup (JsObject.keys (own o)) ∧
  (∀ k, JsObject.get k (own o)
        = if decide (k = "__proto__") then None else groupOf iteratee k l) ∧
  (is_Some (proto o) ↔ ∃ x, x ∈ l ∧ iteratee x = Ok "__proto__").

(** [_.sortBy(collection, property)] for a numeric property: stable,
    ascending. *)
Definition sortBy (property : A → Qc) (l : list A) : list A :=
  JsArray.sort (λ x y, bool_decide (property x ≤ property y)%Qc) l.
End lodash.
Arguments Groups : clear implicits.
Arguments mkGroups {A} own proto.

(** ** The repository as the code sees it *)

(** The events of [commit.history()]: commits, then ['end'] or ['error']. *)
Inductive Walk : Type :=
  | Ended (commits : list Commit)
  | Failed (commits : list Commit) (err : string).

(** What the code reads of the repository that [git.Repository.open] has
    resolved to: the names of its references and, for each, the history
    walk that starts at its commit. *)
Definition Repository : Type := list (string * Walk).

(** ** [getBranchCommits] and [getCommits] *)

Section getCommits.
Variable cfg : Config.

(** [config.since === 'always' || !config.since] *)
Definition sinceAlways : bool :=
  match since cfg with
  | Always | Unset => true
  | Instant _ => false
  end.

(** [config.until === 'always' || !config.until] *)
Definition untilAlways : bool :=
  match until cfg with
  | Always | Unset => true
  | Instant _ => false
  end.

(** [moment(d).isAfter(b)] and [moment(d).isBefore(b)], which compare
    time values strictly. *)
Definition isAfter (d : Z) (b : bound) : bool :=
  match b with
  | Instant ms => bool_decide (ms < d)
  | _ => false
  end.

Definition isBefore (d : Z) (b : bound) : bool :=
  match b with
  | Instant ms => bool_decide (d < ms)
  | _ => false
  end.

Definition isValidSince (commitData : Commit) : bool :=
  if sinceAlways || isAfter (date commitData) (since cfg) then true else false.

Definition isValidUntil (commitData : Commit) : bool :=
  if untilAlways || isBefore (date commitData) (until cfg) then true else false.

(** The ['commit'] handler pushes the commits that pass both tests; the
    promise is resolved on ['end'] and rejected on ['error']. *)
Definition getBranchCommits (branchLatestCommit : Walk) : result (list Commit) :=
  match branchLatestCommit with
  | Ended history =>
      Ok (List.filter (λ c, isValidSince c && isValidUntil c) history)
  | Failed _ err => Err (WalkError err)
  end.

Definition getAllReferences (repo : Repository) : list string := map fst repo.

(** [repo.getBranch(branchName)], then the commit of that reference. *)
Fixpoint getBranchLatestCommit (repo : Repository) (branchName : string)
    : result Walk :=
  match repo with
  | [] => Err (WalkError branchName)
  | (n, w) :: repo' =>
      if decide (branchName = n) then Ok w else getBranchLatestCommit repo' branchName
  end.

(** [reference.match(/refs\/heads\/.*/)]: the pattern is not anchored, so
    it asks for ["refs/heads/"] somewhere in the name. *)
Fixpoint matchesHeads (reference : string) : bool :=
  String.prefix "refs/heads/" reference ||
  match reference with
  | EmptyString => false
  | String _ rest => matchesHeads rest
  end.

(** The filter of [uniqueCommits.filter]. *)
Definition keepsMerge (commit : Commit) : bool :=
  if negb (mergeRequest cfg) && String.prefix "Merge " (message commit)
  then false else true.

(** [if (branch)]: [null] and the empty string are falsy. *)
Definition selectsReference (branch : option string) (reference : string) : bool :=
  match branch with
  | Some b =>
      if decide (b = "") then matchesHeads reference
      else bool_decide (reference = "refs/heads/" +:+ b)
  | None => matchesHeads reference
  end.

Definition getCommits (repo : Repository) (branch : option string)
    : result (list Commit) :=
  let allReferences := getAllReferences repo in
  let branchNames := List.filter (selectsReference branch) allReferences in
  latest ← mapM (getBranchLatestCommit repo) branchNames;
  perBranch ← mapM getBranchCommits latest;
  let commits := concat perBranch in
  let uniqueCommits := uniq sha commits in
  Ok (List.filter keepsMerge uniqueCommits).
End getCommits.

(** ** [extractData] *)

Module AuthorWork.
Record t : Type := mk {
  email : string;
  name : string;
  hours : Qc;
  commits : nat;
}.
End AuthorWork.

(** A value of [sortedWork]: an author's work without its [email], or the
    total, which has no [name]. *)
Module Entry.
Record t : Type := mk {
  name : option string;
  hours : Qc;
  commits : nat;
}.
End Entry.

(** What a caller can be handed. *)
Inductive value : Type :=
  | VNumber (n : Qc)
  | VObject (o : JsObject.t Entry.t).

Section extractData.
Variable cfg : Config.

(** The iteratee of [_.groupBy], with its result as the property key
    that [_.groupBy] makes of it. Reading [commit.author.email] when
    [commit.author] is [null] throws. The empty string is falsy.
    [config.emailAliases[email]] reads an alias that the object owns, or
    else what the object inherits for that name, which is not [undefined]
    either and becomes the key as its text. *)
Definition canonicalEmail (commit : Commit) : result string :=
  match author commit with
  | None => Err (TypeError "Cannot read property 'email' of null")
  | Some a =>
      let email0 := if decide (email a = "") then "unknown" else email a in
      match emailAliases cfg with
      | Some aliases =>
          match aliases !! email0 with
          | Some alias => Ok alias
          | None =>
              match JsObject.inherited email0 with
              | Some text => Ok text
              | None => Ok email0
              end
          end
      | None => Ok email0
      end
  end.

(** The callback of [_.map(commitsByEmail, ...)]. The array that
    [_.pluck] builds is new and is dropped after the call, so only the
    hours of [estimateHours] remain. *)
Definition authorWork (group : string * list Commit) : result AuthorWork.t :=
  let '(authorEmail, authorCommits) := group in
  match authorCommits with
  | [] => Err (TypeError "Cannot read property 'author' of undefined")
  | first :: _ =>
      match author first with
      | None => Err (TypeError "Cannot read property 'name' of null")
      | Some a =>
          Ok {| AuthorWork.email := authorEmail;
                AuthorWork.name := name a;
                AuthorWork.hours :=
                  hoursOfSorted cfg (sortDates (map date authorCommits));
                AuthorWork.commits := length authorCommits |}
      end
  end.

(** [_.omit(authorWork, 'email')] *)
Definition omitEmail (w : AuthorWork.t) : Entry.t :=
  {| Entry.name := Some (AuthorWork.name w);
     Entry.hours := AuthorWork.hours w;
     Entry.commits := AuthorWork.commits w |}.

(** [_.map(commitsByEmail, ...)]. A collection whose [length] is a number
    is walked by index; [commitsByEmail] has such a [length], 1, only by
    inheritance from an array put in place of its prototype, and when it
    owns no [length] (a group, which is no number). Then the callback is
    called once, on [commitsByEmail[0]] and the index 0: on the group that
    the object owns under ["0"], or else on the commit in the prototype
    array, where [authorCommits[0]] is [undefined]. *)
Definition authorWorksOf (commits : list Commit) : result (list AuthorWork.t) :=
  commitsByEmail ← groupBy canonicalEmail commits;
  match proto commitsByEmail, JsObject.get "length" (own commitsByEmail) with
  | Some _, None =>
      match JsObject.get "0" (own commitsByEmail) with
      | Some authorCommits => w ← authorWork ("0", authorCommits); Ok [w]
      | None => Err (TypeError "Cannot read property 'author' of undefined")
      end
  | _, _ => mapM authorWork (JsObject.entries (own commitsByEmail))
  end.

(** [sortedWork] before the total is stored. *)
Definition sortedEntries (authorWorks : list AuthorWork.t) : JsObject.t Entry.t :=
  fold_left (λ sortedWork w, JsObject.set (AuthorWork.email w) (omitEmail w) sortedWork)
    (sortBy AuthorWork.hours authorWorks) [].

(** [_.reduce(sortedWork, ..., 0)] *)
Definition totalHoursOf (sortedWork : JsObject.t Entry.t) : Qc :=
  fold_left (λ sum kv, (sum + Entry.hours kv.2)%Qc) (JsObject.entries sortedWork) 0%Qc.

(** [sortedWork] when the callback of [getCommits(...).then] returns. *)
Definition sortedWorkOf (commits : list Commit) : result (JsObject.t Entry.t) :=
  authorWorks ← authorWorksOf commits;
  let sortedWork := sortedEntries authorWorks in
  let totalHours := totalHoursOf sortedWork in
  Ok (JsObject.set "total"
        {| Entry.name := None;
           Entry.hours := totalHours;
           Entry.commits := length commits |} sortedWork).

(** [return sortedWork.total.hours] *)
Definition extractData (repo : Repository) : result value :=
  commits ← getCommits cfg repo (branch cfg);
  sortedWork ← sortedWorkOf commits;
  match JsObject.get "total" sortedWork with
  | Some total => Ok (VNumber (Entry.hours total))
  | None => Err (TypeError "Cannot read property 'hours' of undefined")
  end.
End extractData.

(** ** Notions of the specification about the report *)

(** The sum of a list of numbers, and of the hours of the author works. *)
Definition sumOf (l : list Qc) : Qc := foldr Qcplus 0%Qc l.

Definition sumHours (authorWorks : list AuthorWork.t) : Qc :=
  sumOf (AuthorWork.hours <$> authorWorks).

(** The commits of [commits] attributed to the canonical email [k]. *)
Definition attributedTo (cfg : Config) (k : string) (commits : list Commit)
    : list Commit :=
  List.filter (keyIs (canonicalEmail cfg) k) commits.

(** Some commit of [commits] has the canonical email [k]. *)
Definition occursIn (cfg : Config) (commits : list Commit) (k : string) : Prop :=
  ∃ c, c ∈ commits ∧ canonicalEmail cfg c = Ok k.

(** The entry that [sortedWork] gets for an author work, with its key. *)
Definition entryOf (w : AuthorWork.t) : string * Entry.t :=
  (AuthorWork.email w, omitEmail w).

(** The entries of a report other than the one under ["total"]. *)
Definition perAuthor (sortedWork : JsObject.t Entry.t) : JsObject.t Entry.t :=
  List.filter (λ kv, negb (bool_decide (kv.1 = "total"))) sortedWork.

(** Commits of two authors, one of whom has the email ["total"]. *)
Definition collisionCommits : list Commit :=
  let alice := Some (mkAuthor "Alice" "alice@example.org") in
  let tess := Some (mkAuthor "Tess" "total") in
  [mkCommit "a3" (690 * 60000) "third" alice;
   mkCommit "t1" (600 * 60000) "only" tess;
   mkCommit "a2" (560 * 60000) "second" alice;
   mkCommit "a1" (540 * 60000) "first" alice].

Definition collisionRepo : Repository :=
  [("refs/heads/master", Ended collisionCommits)].

(** The reading of the specification for what [extractData] hands back:
    the whole report. *)
Definition handsBackReport (cfg : Config) (repo : Repository) : Prop :=
  ∃ commits sortedWork,
    getCommits cfg repo (branch cfg) = Ok commits ∧
    sortedWorkOf cfg commits = Ok sortedWork ∧
    extractData cfg repo = Ok (VObject sortedWork).

(** The commits of the specification's end-to-end example: alice at 09:00,
    09:20 and 11:30, bob at 10:00, as a walk from the newest would give
    them; and a repository with these on one branch. *)
Definition exampleCommits : list Commit :=
  let alice := Some (mkAuthor "Alice" "alice@example.org") in
  let bob := Some (mkAuthor "Bob" "bob@example.org") in
  [mkCommit "a3" (690 * 60000) "third" alice;
   mkCommit "b1" (600 * 60000) "only" bob;
   mkCommit "a2" (560 * 60000) "second" alice;
   mkCommit "a1" (540 * 60000) "first" alice].

Definition exampleRepo : Repository :=
  [("refs/heads/master", Ended exampleCommits)].

(** The same with a second branch that shares the two oldest commits. *)
Definition sharedRepo : Repository :=
  let alice := Some (mkAuthor "Alice" "alice@example.org") in
  let bob := Some (mkAuthor "Bob" "bob@example.org") in
  [("refs/heads/master", Ended exampleCommits);
   ("refs/heads/dev",
    Ended [mkCommit "d1" (700 * 60000) "on dev" bob;
           mkCommit "a2" (560 * 60000) "second" alice;
           mkCommit "a1" (540 * 60000) "first" alice])].

(** ** Notions about the commits that [getCommits] reads *)

(** The references that pass the filter of [getCommits]. *)
Definition selectedReferences (repo : Repository) (branch : option string)
    : list string :=
  List.filter (selectsReference branch) (getAllReferences repo).

(** The walk of a selected reference ends and has emitted [c]. *)
Definition emits (repo : Repository) (branch : option string) (c : Commit) : Prop :=
  ∃ name history,
    name ∈ selectedReferences repo branch ∧
    getBranchLatestCommit repo name = Ok (Ended history) ∧
    c ∈ history.

(** [c] passes the two date tests of [getBranchCommits]. *)
Definition inRange (cfg : Config) (c : Commit) : Prop :=
  isValidSince cfg c = true ∧ isValidUntil cfg c = true.

(** ** The command line front end *)

(** The front end carries its own copies of [estimateHours] and
    [getCommits]; what it adds is the resolution of the configuration from
    the arguments. [String.prototype.trim] is left as a parameter of the
    functions that call it. *)
Module Cli.

(** A number as [parseInt] gives it. *)
Inductive number : Type :=
  | NaN
  | Num (n : Z).

(** The properties of [program] that [mergeDefaultsWithArgs] reads: not
    defined ([None]), or the value that the coercion of the option gave
    ([int] or [String]). *)
Module Program.
Record t : Type := mk {
  range : option string;
  maxCommitDiff : option number;
  firstCommitAdd : option number;
  since : option string;
  until : option string;
  path : option string;
  mergeRequest : option string;
  branch : option string;
}.
End Program.

(** The [config] object of the front end, before the dates are parsed. A
    property that the object does not have is [None]. *)
Module Conf.
Record t : Type := mk {
  range : option string;
  maxCommitDiffInMinutes : Z;
  firstCommitAdditionInMinutes : Z;
  since : string;
  until : string;
  mergeRequest : bool;
  gitPath : string;
  emailAliases : option (gmap string string);
  branch : option string;
}.
End Conf.

(** The [config] literal of the front end. *)
Definition config : Conf.t :=
  {| Conf.range := None;
     Conf.maxCommitDiffInMinutes := 60;
     Conf.firstCommitAdditionInMinutes := 30;
     Conf.since := "always";
     Conf.until := "always";
     Conf.mergeRequest := true;
     Conf.gitPath := ".";
     Conf.emailAliases := Some {["linus@torvalds.com" := "linus@linux.com"]};
     Conf.branch := None |}.

(** [p || d] for a number: [undefined], [NaN] and [0] are falsy. *)
Definition orNumber (p : option number) (d : Z) : Z :=
  match p with
  | Some (Num n) => if decide (n = 0) then d else n
  | Some NaN | None => d
  end.

(** [p || d] for a string: [undefined] and the empty string are falsy. *)
Definition orString (p : option string) (d : string) : string :=
  match p with
  | Some s => if decide (s = "") then d else s
  | None => d
  end.

Definition orBranch (p : option string) (d : option string) : option string :=
  match p with
  | Some s => if decide (s = "") then d else Some s
  | None => d
  end.

(** The object that [mergeDefaultsWithArgs] returns has no [emailAliases]. *)
Definition mergeDefaultsWithArgs (program : Program.t) (conf : Conf.t) : Conf.t :=
  {| Conf.range := Program.range program;
     Conf.maxCommitDiffInMinutes :=
       orNumber (Program.maxCommitDiff program) (Conf.maxCommitDiffInMinutes conf);
     Conf.firstCommitAdditionInMinutes :=
       orNumber (Program.firstCommitAdd program) (Conf.firstCommitAdditionInMinutes conf);
     Conf.since := orString (Program.since program) (Conf.since conf);
     Conf.until := orString (Program.until program) (Conf.until conf);
     Conf.mergeRequest :=
       match Program.mergeRequest program with
       | Some s => bool_decide (s = "true")
       | None => Conf.mergeRequest conf
       end;
     Conf.gitPath := orString (Program.path program) (Conf.gitPath conf);
     Conf.emailAliases := None;
     Conf.branch := orBranch (Program.branch program) (Conf.branch conf) |}.

(** The character [=]. *)
Definition equalsSign : Ascii.ascii := Ascii.ascii_of_nat 61.

(** [s.indexOf(c)], [-1] when [c] does not occur. *)
Fixpoint indexOf (c : Ascii.ascii) (s : string) : Z :=
  match s with
  | EmptyString => -1
  | String a rest =>
      if decide (a = c) then 0
      else let i := indexOf c rest in if decide (i < 0) then -1 else i + 1
  end.

(** [s.substring(start, finish)]: both ends are brought into the string
    and put in order. *)
Definition clamp (n : Z) (s : string) : nat :=
  Z.to_nat (Z.min (Z.max n 0) (Z.of_nat (String.length s))).

Definition substring (start finish : Z) (s : string) : string :=
  let a := clamp start s in
  let b := clamp finish s in
  String.substring (a `min` b) ((a `max` b) - (a `min` b)) s.

(** [s.substring(start)] *)
Definition substringFrom (start : Z) (s : string) : string :=
  substring start (Z.of_nat (String.length s)) s.

(** What the argument handling changes: [config.emailAliases] and the
    lines written by [console.error]. *)
Definition State : Type := option (gmap string string) * list string.

Section trim.
Variable trim : string → string.

(** [parseEmailAlias(alias)]; the argument is [None] when it is
    [undefined], and then [alias.indexOf] throws. The assignment
    [config.emailAliases[email] = alias] stores nothing when [email] is
    ["__proto__"] and the object does not own that name. *)
Definition parseEmailAlias (alias : option string) (st : State) : result State :=
  match alias with
  | None => Err (TypeError "Cannot read property 'indexOf' of undefined")
  | Some alias =>
      if decide (0 < indexOf equalsSign alias) then
        let email := trim (substring 0 (indexOf equalsSign alias) alias) in
        let alias' := trim (substringFrom (indexOf equalsSign alias + 1) alias) in
        let aliases := default ∅ st.1 in
        Ok (Some (if decide (email = "__proto__" ∧ aliases !! email = None)
                  then aliases
                  else <[email := alias']> aliases),
            st.2)
      else Ok (st.1, st.2 ++ ["ERROR: Invalid alias: " +:+ alias])
  end.

(** The loop of [main] over [process.argv]: [k] is the argument at hand
    and [n] the one after it, [undefined] behind the last. *)
Fixpoint emailArgs (argv : list string) (st : State) : result State :=
  match argv with
  | [] => Ok st
  | k :: rest =>
      let n := head rest in
      st' ← (if decide (k = "-e" ∨ k = "--email") then parseEmailAlias n st
             else if String.prefix "--email=" k
             then parseEmailAlias (Some (substringFrom (indexOf equalsSign k + 1) k)) st
             else Ok st);
      emailArgs rest st'
  end.

(** [config.emailAliases] and the error lines when [main] reaches
    [getCommits]. *)
Definition resolveAliases (program : Program.t) (conf : Conf.t) (argv : list string)
    : result State :=
  emailArgs argv (Conf.emailAliases (mergeDefaultsWithArgs program conf), []).
End trim.

(** An argument that the loop of [main] passes over. *)
Definition plainArg (k : string) : Prop :=
  k ≠ "-e" ∧ k ≠ "--email" ∧ String.prefix "--email=" k = false.
End Cli.

(** * Properties *)

(** ** The sort *)

Section sort_facts.
Context {A : Type} (leb : A → A → bool).
Hypothesis leb_total : ∀ x y, leb x y = false → leb y x = true.
Hypothesis leb_trans : ∀ x y z, leb x y = true → leb y z = true → leb x z = true.

Lemma insert_Permutation x l : JsArray.insert leb x l ≡ₚ x :: l.
Proof.
  induction l as [|y l IH]; simpl; [done|].
  destruct (leb x y); [done|].
  rewrite IH. apply Permutation_swap.
Qed.

Lemma sort_Permutation l : JsArray.sort leb l ≡ₚ l.
Proof.
  induction l as [|x l IH]; simpl; [done|].
  unfold JsArray.sort in *. simpl.
  rewrite insert_Permutation. by f_equiv.
Qed.

Lemma insert_StronglySorted x l :
  StronglySorted (λ x y, leb x y = true) l →
  StronglySorted (λ x y, leb x y = true) (JsArray.insert leb x l).
Proof.
  induction 1 as [|y l Hl IH Hy]; simpl.
  - repeat constructor.
  - destruct (leb x y) eqn:Hxy.
    + constructor; [by constructor|].
      constructor; [exact Hxy|].
      eapply Forall_impl; [exact Hy|].
      intros z Hz. by apply (leb_trans x y z).
    + constructor; [exact IH|].
      rewrite insert_Permutation. constructor; [|exact Hy].
      by apply leb_total.
Qed.

Lemma sort_StronglySorted l :
  StronglySorted (λ x y, leb x y = true) (JsArray.sort leb l).
Proof.
  induction l as [|x l IH]; [constructor|].
  apply insert_StronglySorted, IH.
Qed.
End sort_facts.

Lemma StronglySorted_weaken {A : Type} (R S : A → A → Prop) (l : list A) :
  (∀ x y, R x y → S x y) → StronglySorted R l → StronglySorted S l.
Proof.
  intros HRS. induction 1 as [|x l Hl IH Hx]; constructor; [done|].
  eapply Forall_impl; [exact Hx|]. auto.
Qed.

Lemma sortDates_Permutation l : sortDates l ≡ₚ l.
Proof. apply sort_Permutation. Qed.

Lemma sortDates_StronglySorted l : StronglySorted Z.le (sortDates l).
Proof.
  apply (StronglySorted_weaken (λ x y, Z.leb x y = true)).
  - intros x y. apply Z.leb_le.
  - apply sort_StronglySorted.
    + intros x y Hxy. apply Z.leb_le. apply Z.leb_gt in Hxy. lia.
    + intros x y z Hxy Hyz. apply Z.leb_le. apply Z.leb_le in Hxy, Hyz. lia.
Qed.

(** An ascending arrangement of a list of dates is the one the sort gives. *)
Lemma sortDates_unique l s :
  s ≡ₚ l → StronglySorted Z.le s → s = sortDates l.
Proof.
  intros Hp Hs.
  apply (StronglySorted_unique Z.le); [done|apply sortDates_StronglySorted|].
  by rewrite Hp, sortDates_Permutation.
Qed.

Lemma sortDates_proper l l' : l ≡ₚ l' → sortDates l = sortDates l'.
Proof.
  intros Hp. apply sortDates_unique; [|apply sortDates_StronglySorted].
  by rewrite sortDates_Permutation.
Qed.

(** ** [estimateHours] *)

Section estimateHours_facts.
Variable cfg : Config.

Lemma forEachDate_credit cur last date :
  forEachDate cfg (cur, Some last) date
  = ((cur + credit cfg (diffInMinutes last date))%Qc, Some date).
Proof. unfold forEachDate, credit. by case_decide. Qed.

Lemma fold_forEachDate rest : ∀ cur a,
  (fold_left (forEachDate cfg) rest (cur, Some a)).1
  = (cur + creditedMinutes cfg (a :: rest))%Qc.
Proof.
  induction rest as [|b rest IH]; intros cur a.
  - simpl. by rewrite Qcplus_0_r.
  - cbn [fold_left]. rewrite forEachDate_credit, IH.
    cbn [creditedMinutes]. by rewrite Qcplus_assoc.
Qed.

Lemma hoursOfSorted_credited sorted :
  hoursOfSorted cfg sorted
  = ((Qc_of_Z (firstCommitAdditionInMinutes cfg) + creditedMinutes cfg sorted)
     / Qc_of_Z 60)%Qc.
Proof.
  unfold hoursOfSorted. destruct sorted as [|a rest].
  - simpl. by rewrite Qcplus_0_r.
  - cbn [fold_left]. cbn [forEachDate].
    pose proof (fold_forEachDate rest (Qc_of_Z (firstCommitAdditionInMinutes cfg)) a) as H.
    destruct (fold_left _ _ _) as [cur lastDate]. simpl in H. by rewrite H.
Qed.

Lemma estimateHours_Some dates (h : store) l :
  h !! dates = Some l →
  estimateHours cfg dates h
  = Some (hoursOfSorted cfg (sortDates l), <[dates := sortDates l]> h).
Proof.
  intros Hl. unfold estimateHours. rewrite Hl. simpl.
  by rewrite lookup_insert_eq.
Qed.
End estimateHours_facts.

(** The call [estimateHours(_.pluck(authorCommits, 'date'))] of
    [extractData]: on an array allocated for the call at [r], the hours are
    those that [authorWork] records. *)
Lemma estimateHours_plucked cfg (h : store) r (authorCommits : list Commit) :
  estimateHours cfg r (<[r := date <$> authorCommits]> h)
  = Some (hoursOfSorted cfg (sortDates (date <$> authorCommits)),
          <[r := sortDates (date <$> authorCommits)]> h).
Proof.
  rewrite (estimateHours_Some cfg r _ (date <$> authorCommits))
    by apply lookup_insert_eq.
  by rewrite insert_insert_eq.
Qed.

(** C1. For a non-empty array of commit dates, [estimateHours] returns
    [(firstCommitAdditionInMinutes + S) / 60], where [S] adds, over the
    consecutive pairs of the ascending arrangement [s] of the dates, the
    difference in minutes when it is strictly below
    [maxCommitDiffInMinutes] and the smaller of the difference and
    [firstCommitAdditionInMinutes] otherwise. A single date gives
    [firstCommitAdditionInMinutes / 60], one half with a bonus of 30, and a
    loop step whose difference equals the threshold adds the capped
    amount. *)
Theorem estimateHours_credits cfg (h : store) dates l :
  h !! dates = Some l →
  l ≠ [] →
  ∃ hrs h',
    estimateHours cfg dates h = Some (hrs, h') ∧
    (∀ s, s ≡ₚ l → StronglySorted Z.le s →
       hrs = ((Qc_of_Z (firstCommitAdditionInMinutes cfg) + creditedMinutes cfg s)
              / Qc_of_Z 60)%Qc) ∧
    (∀ t, l = [t] →
       hrs = (Qc_of_Z (firstCommitAdditionInMinutes cfg) / Qc_of_Z 60)%Qc ∧
       (firstCommitAdditionInMinutes cfg = 30 → hrs = Q2Qc (1 # 2))) ∧
    (∀ cur last date,
       diffInMinutes last date = Qc_of_Z (maxCommitDiffInMinutes cfg) →
       forEachDate cfg (cur, Some last) date
       = ((cur + Qcmin (diffInMinutes last date)
                   (Qc_of_Z (firstCommitAdditionInMinutes cfg)))%Qc,
          Some date)).
Proof.
  intros Hl _. eexists _, _. split; [by apply estimateHours_Some|].
  split; [|split].
  - intros s Hp Hs. rewrite <-(sortDates_unique l s Hp Hs).
    apply hoursOfSorted_credited.
  - intros t ->. split.
    + rewrite hoursOfSorted_credited. simpl. by rewrite Qcplus_0_r.
    + intros H30. unfold hoursOfSorted. simpl. rewrite H30.
      apply Qc_is_canon. reflexivity.
  - intros cur last date Hd. unfold forEachDate.
    case_decide as Hlt; [|done].
    rewrite Hd in Hlt. by apply Qclt_not_eq in Hlt.
Qed.

Lemma estimateHours_credits_witness :
  ({[1%positive := [5400000; 0]]} : store) !! 1%positive = Some [5400000; 0] ∧
  ∃ hrs h',
    estimateHours config 1%positive {[1%positive := [5400000; 0]]} = Some (hrs, h') ∧
    hrs = ((Qc_of_Z 30 + creditedMinutes config [0; 5400000]%Z) / Qc_of_Z 60)%Qc.
Proof.
  split; [reflexivity|].
  destruct (estimateHours_credits config {[1%positive := [5400000; 0]]} 1%positive
              [5400000; 0]) as (hrs & h' & He & Hs & _);
    [reflexivity|discriminate|].
  exists hrs, h'. split; [exact He|].
  apply Hs.
  - apply Permutation_swap.
  - repeat constructor; lia.
Defined.

(** The three values of the specification, with the configuration of
    [utils.js]: one commit; two commits 20 minutes apart; two commits 90
    minutes apart. The last line is a gap of exactly 60 minutes. *)
Example estimateHours_examples (t : Z) :
  hoursOfSorted config (sortDates [t]) = Q2Qc (1 # 2) ∧
  hoursOfSorted config (sortDates [t + 20 * 60000; t]) = Q2Qc (5 # 6) ∧
  hoursOfSorted config (sortDates [t; t + 90 * 60000]) = Q2Qc 1 ∧
  hoursOfSorted config (sortDates [t; t + 60 * 60000]) = Q2Qc 1.
Proof.
  assert (H20 : (t <=? t + 20 * 60000) = true) by (apply Z.leb_le; lia).
  assert (H20' : (t + 20 * 60000 <=? t) = false) by (apply Z.leb_gt; lia).
  assert (H90 : (t <=? t + 90 * 60000) = true) by (apply Z.leb_le; lia).
  assert (H60 : (t <=? t + 60 * 60000) = true) by (apply Z.leb_le; lia).
  unfold sortDates, JsArray.sort, hoursOfSorted. cbn [foldr JsArray.insert].
  rewrite H20', H90, H60. cbn [fold_left forEachDate]. unfold diffInMinutes.
  replace (t + 20 * 60000 - t) with 1200000 by lia.
  replace (t + 90 * 60000 - t) with 5400000 by lia.
  replace (t + 60 * 60000 - t) with 3600000 by lia.
  repeat split; apply Qc_is_canon; reflexivity.
Qed.

(** C4. [estimateHours] gives the same hours on an array and on any
    rearrangement of it. *)
Theorem estimateHours_permutation_invariant cfg (h1 h2 : store) d1 d2 l1 l2 :
  h1 !! d1 = Some l1 →
  h2 !! d2 = Some l2 →
  l1 ≡ₚ l2 →
  ∃ hrs,
    fst <$> estimateHours cfg d1 h1 = Some hrs ∧
    fst <$> estimateHours cfg d2 h2 = Some hrs.
Proof.
  intros H1 H2 Hp. exists (hoursOfSorted cfg (sortDates l1)).
  rewrite (estimateHours_Some cfg d1 h1 l1 H1), (estimateHours_Some cfg d2 h2 l2 H2).
  simpl. by rewrite (sortDates_proper l1 l2 Hp).
Qed.

Lemma estimateHours_permutation_invariant_witness :
  ∃ hrs,
    fst <$> estimateHours config 1%positive {[1%positive := [30; 10; 20]]} = Some hrs ∧
    fst <$> estimateHours config 2%positive {[2%positive := [10; 20; 30]]} = Some hrs.
Proof.
  apply (estimateHours_permutation_invariant config _ _ _ _ [30; 10; 20] [10; 20; 30]);
    [reflexivity|reflexivity|].
  change ([30; 10; 20] ≡ₚ [10; 20] ++ [30]).
  apply (Permutation_cons_append [10; 20] 30).
Defined.

(** C10. [estimateHours] sorts the array it is given in place: after the
    call the reference [dates] holds the same dates in ascending order, and
    no other array of the store has changed. *)
Theorem estimateHours_sorts_in_place cfg (h : store) dates l :
  h !! dates = Some l →
  ∃ hrs h',
    estimateHours cfg dates h = Some (hrs, h') ∧
    (∃ l', h' !! dates = Some l' ∧ l' ≡ₚ l ∧ StronglySorted Z.le l') ∧
    (∀ r, r ≠ dates → h' !! r = h !! r).
Proof.
  intros Hl. eexists _, _. split; [by apply estimateHours_Some|]. split.
  - exists (sortDates l). rewrite lookup_insert_eq.
    split; [done|]. split; [apply sortDates_Permutation|apply sortDates_StronglySorted].
  - intros r Hr. by rewrite lookup_insert_ne.
Qed.

Lemma estimateHours_sorts_in_place_witness :
  ∃ hrs h',
    estimateHours config 1%positive {[1%positive := [30; 10; 20]]} = Some (hrs, h') ∧
    h' !! 1%positive = Some [10; 20; 30].
Proof.
  destruct (estimateHours_sorts_in_place config {[1%positive := [30; 10; 20]]}
              1%positive [30; 10; 20]) as (hrs & h' & He & _); [reflexivity|].
  exists hrs, h'. split; [exact He|].
  rewrite (estimateHours_Some config 1%positive _ [30; 10; 20]) in He by reflexivity.
  injection He as _ <-. reflexivity.
Defined.

(** ** [_.uniq] *)

Section uniq_facts.
Context {A K : Type} `{EqDecision K} (iteratee : A → K).

Lemma elem_of_uniqFrom seen l x :
  x ∈ uniqFrom iteratee seen l → x ∈ l ∧ iteratee x ∉ seen.
Proof.
  revert seen. induction l as [|y l IH]; intros seen; simpl.
  - by intros ?%elem_of_nil.
  - case_decide as Hy.
    + intros [??]%IH. split; [by right|done].
    + intros [->|[? Hx]%IH]%elem_of_cons.
      * split; [by left|done].
      * split; [by right|]. intros ?. apply Hx. by right.
Qed.

Lemma NoDup_uniqFrom seen l : NoDup (iteratee <$> uniqFrom iteratee seen l).
Proof.
  revert seen. induction l as [|y l IH]; intros seen; simpl.
  - constructor.
  - case_decide as Hy; [apply IH|].
    rewrite fmap_cons. constructor; [|apply IH].
    intros (x & Hk & Hx)%list_elem_of_fmap.
    apply elem_of_uniqFrom in Hx as [_ Hx]. apply Hx. rewrite Hk. by left.
Qed.

Lemma uniqFrom_covers seen l x :
  x ∈ l → iteratee x ∉ seen → iteratee x ∈ iteratee <$> uniqFrom iteratee seen l.
Proof.
  revert seen. induction l as [|y l IH]; intros seen; simpl.
  - by intros ?%elem_of_nil.
  - intros [->|Hx]%elem_of_cons Hseen.
    + rewrite decide_False by done. rewrite fmap_cons. by left.
    + case_decide as Hy; [by apply IH|].
      rewrite fmap_cons. destruct (decide (iteratee x = iteratee y)) as [->|Hne].
      * by left.
      * right. apply IH; [done|]. by intros [?|?]%elem_of_cons.
Qed.

Lemma find_uniqFrom_seen seen l k :
  k ∈ seen →
  List.find (λ x, bool_decide (iteratee x = k)) (uniqFrom iteratee seen l) = None.
Proof.
  intros Hk. destruct (List.find _ _) as [x|] eqn:Hf; [|done].
  apply find_some in Hf as [Hx Hxk]. apply bool_decide_eq_true in Hxk.
  apply list_elem_of_In, elem_of_uniqFrom in Hx as [_ Hx]. by subst.
Qed.

Lemma find_uniqFrom seen l k :
  k ∉ seen →
  List.find (λ x, bool_decide (iteratee x = k)) (uniqFrom iteratee seen l)
  = List.find (λ x, bool_decide (iteratee x = k)) l.
Proof.
  revert seen. induction l as [|y l IH]; intros seen Hk; simpl; [done|].
  case_decide as Hy.
  - rewrite bool_decide_eq_false_2 by (by intros <-). by apply IH.
  - simpl. case_bool_decide as Hyk; [done|].
    apply IH. intros [?|?]%elem_of_cons; [by subst|done].
Qed.
End uniq_facts.

(** [_.uniq] by commit id on the concatenation of per-branch lists: no
    commit id occurs twice, every id of the input occurs, and the record
    under an id is the first record with that id in the input. *)
Lemma uniq_first_occurrence (perBranch : list (list Commit)) :
  let commits := concat perBranch in
  let uniqueCommits := uniq sha commits in
  NoDup (sha <$> uniqueCommits) ∧
  (∀ c, c ∈ commits → sha c ∈ sha <$> uniqueCommits) ∧
  (∀ c, c ∈ uniqueCommits → c ∈ commits) ∧
  (∀ id, List.find (λ c, bool_decide (sha c = id)) uniqueCommits
         = List.find (λ c, bool_decide (sha c = id)) commits).
Proof.
  intros commits uniqueCommits. unfold uniqueCommits, uniq.
  split; [apply NoDup_uniqFrom|]. split; [|split].
  - intros c Hc. apply uniqFrom_covers; [done|]. by intros ?%elem_of_nil.
  - intros c Hc. by apply elem_of_uniqFrom in Hc as [? _].
  - intros id. apply find_uniqFrom. by intros ?%elem_of_nil.
Qed.

(** ** The filters of [getBranchCommits] and [getCommits] *)

Lemma elem_of_List_filter {A : Type} (f : A → bool) (l : list A) (x : A) :
  x ∈ List.filter f l ↔ x ∈ l ∧ f x = true.
Proof. rewrite !list_elem_of_In. apply filter_In. Qed.

Lemma isValidSince_true cfg c :
  isValidSince cfg c = true ↔
  sinceAlways cfg = true ∨ ∃ s, since cfg = Instant s ∧ s < date c.
Proof.
  unfold isValidSince, sinceAlways, isAfter.
  destruct (since cfg) as [| |s]; simpl; [naive_solver..|].
  case_bool_decide; split; [eauto|done|done|].
  intros [?|(s' & [= <-] & ?)]; done.
Qed.

Lemma isValidUntil_true cfg c :
  isValidUntil cfg c = true ↔
  untilAlways cfg = true ∨ ∃ u, until cfg = Instant u ∧ date c < u.
Proof.
  unfold isValidUntil, untilAlways, isBefore.
  destruct (until cfg) as [| |u]; simpl; [naive_solver..|].
  case_bool_decide; split; [eauto|done|done|].
  intros [?|(u' & [= <-] & ?)]; done.
Qed.

(** C6. The walk of a branch keeps a commit exactly when ['always'] stands
    for [since] (or nothing is set) or the commit is strictly after
    [since], and ['always'] stands for [until] (or nothing is set) or the
    commit is strictly before [until]. A commit dated exactly at [since],
    or exactly at [until], is not kept. *)
Theorem range_filter_exclusive cfg history c :
  ∃ kept,
    getBranchCommits cfg (Ended history) = Ok kept ∧
    (c ∈ kept ↔
       c ∈ history ∧
       (sinceAlways cfg = true ∨ ∃ s, since cfg = Instant s ∧ s < date c) ∧
       (untilAlways cfg = true ∨ ∃ u, until cfg = Instant u ∧ date c < u)) ∧
    (since cfg = Instant (date c) → c ∉ kept) ∧
    (until cfg = Instant (date c) → c ∉ kept).
Proof.
  eexists. split; [reflexivity|].
  assert (Hiff : c ∈ List.filter (λ c, isValidSince cfg c && isValidUntil cfg c) history ↔
       c ∈ history ∧
       (sinceAlways cfg = true ∨ ∃ s, since cfg = Instant s ∧ s < date c) ∧
       (untilAlways cfg = true ∨ ∃ u, until cfg = Instant u ∧ date c < u)).
  { rewrite elem_of_List_filter, andb_true_iff, isValidSince_true, isValidUntil_true.
    tauto. }
  split; [exact Hiff|]. split.
  - intros Hs. rewrite Hiff. intros (_ & [Ha|(s & Hs' & Hlt)] & _).
    + unfold sinceAlways in Ha. by rewrite Hs in Ha.
    + rewrite Hs in Hs'. injection Hs' as <-. lia.
  - intros Hu. rewrite Hiff. intros (_ & _ & [Ha|(u & Hu' & Hlt)]).
    + unfold untilAlways in Ha. by rewrite Hu in Ha.
    + rewrite Hu in Hu'. injection Hu' as <-. lia.
Qed.

Lemma append_String a (p rest : string) :
  String a p +:+ rest = String a (p +:+ rest).
Proof. reflexivity. Qed.

Lemma String_prefix_append (p s : string) :
  String.prefix p s = true ↔ ∃ rest, s = p +:+ rest.
Proof.
  revert s. induction p as [|a p IH]; intros s.
  - split; [by exists s|by destruct s].
  - destruct s as [|b s]; simpl; [split; [done|by intros [? ?]]|].
    destruct (Ascii.ascii_dec a b) as [->|Hab].
    + rewrite IH. split; intros [rest Hr]; exists rest.
      * by rewrite append_String, Hr.
      * rewrite append_String in Hr. congruence.
    + split; [done|]. intros [rest Hr]. rewrite append_String in Hr. congruence.
Qed.


(** The two messages of the specification's example, under both settings. *)
Example merge_filter_examples :
  let off := mkConfig 60 30 Always Always false (Some ∅) None in
  keepsMerge off (mkCommit "1" 0 "Merge branch 'x'" None) = false ∧
  keepsMerge config (mkCommit "1" 0 "Merge branch 'x'" None) = true ∧
  keepsMerge off (mkCommit "2" 0 "merge fix" None) = true ∧
  keepsMerge off (mkCommit "3" 0 "A Merge fix" None) = true.
Proof. by vm_compute. Qed.

(** ** A branch that does not exist *)

Lemma List_filter_none {A : Type} (f : A → bool) (l : list A) :
  (∀ x, x ∈ l → f x = false) → List.filter f l = [].
Proof.
  induction l as [|x l IH]; intros H; simpl; [done|].
  rewrite (H x) by (by left). apply IH. intros y Hy. apply H. by right.
Qed.

Lemma getCommits_missing_branch cfg repo b :
  b ≠ "" →
  ("refs/heads/" +:+ b) ∉ getAllReferences repo →
  getCommits cfg repo (Some b) = Ok [].
Proof.
  intros Hb Hmiss. unfold getCommits.
  rewrite List_filter_none; [done|].
  intros r Hr. unfold selectsReference. rewrite decide_False by done.
  apply bool_decide_eq_false. by intros ->.
Qed.

(** C9. When [branch] names a branch and the repository has no reference
    [refs/heads/<branch>], nothing is rejected: [getCommits] resolves to no
    commits, the report holds the total with zero hours and zero commits
    and no author, and [extractData] resolves (to zero hours). *)
Theorem missing_branch_empty_report cfg repo b :
  branch cfg = Some b →
  b ≠ "" →
  ("refs/heads/" +:+ b) ∉ getAllReferences repo →
  getCommits cfg repo (branch cfg) = Ok [] ∧
  sortedWorkOf cfg []
  = Ok [("total", {| Entry.name := None; Entry.hours := 0%Qc; Entry.commits := 0 |})] ∧
  extractData cfg repo = Ok (VNumber 0%Qc).
Proof.
  intros Hbranch Hb Hmiss.
  assert (Hc : getCommits cfg repo (branch cfg) = Ok []).
  { rewrite Hbranch. by apply getCommits_missing_branch. }
  split; [exact Hc|]. split; [reflexivity|].
  unfold extractData. by rewrite Hc.
Qed.

Lemma missing_branch_empty_report_witness :
  let cfg := mkConfig 60 30 Always Always true (Some ∅) (Some "gone") in
  let repo : Repository :=
    [("refs/heads/master", Ended [mkCommit "c1" 0 "init" None]);
     ("refs/tags/gone", Failed [] "unreadable")] in
  ("refs/heads/gone" ∉ getAllReferences repo) ∧
  getCommits cfg repo (branch cfg) = Ok [] ∧
  extractData cfg repo = Ok (VNumber 0%Qc).
Proof.
  intros cfg repo.
  assert (Hmiss : "refs/heads/gone" ∉ getAllReferences repo).
  { intros H. apply list_elem_of_In in H. simpl in H.
    destruct H as [H|[H|[]]]; discriminate H. }
  split; [exact Hmiss|].
  destruct (missing_branch_empty_report cfg repo "gone") as (Hc & _ & He);
    [reflexivity|discriminate|exact Hmiss|].
  split; [exact Hc|exact He].
Defined.

(** ** Objects *)

Section JsObject_facts.
Context {V : Type}.
Implicit Types (o : JsObject.t V) (k : string) (v : V).

Lemma get_None o k : JsObject.get k o = None ↔ k ∉ JsObject.keys o.
Proof.
  induction o as [|[k' v'] o IH]; simpl.
  - split; [intros _ ?%elem_of_nil; done|done].
  - case_decide as Hk.
    + split; [done|]. intros H. exfalso. apply H. subst. by left.
    + rewrite IH, not_elem_of_cons. tauto.
Qed.

Lemma get_set_eq o k v : JsObject.get k (JsObject.set k v o) = Some v.
Proof.
  induction o as [|[k' v'] o IH]; simpl.
  - by rewrite decide_True.
  - case_decide; simpl; [by rewrite decide_True|by rewrite decide_False].
Qed.

Lemma get_set_ne o k k' v :
  k ≠ k' → JsObject.get k' (JsObject.set k v o) = JsObject.get k' o.
Proof.
  intros Hne. induction o as [|[k'' v''] o IH]; simpl.
  - by rewrite decide_False.
  - case_decide as Hk; simpl.
    + subst k''. by rewrite !decide_False by done.
    + case_decide; [done|exact IH].
Qed.

Lemma set_fresh o k v : k ∉ JsObject.keys o → JsObject.set k v o = o ++ [(k, v)].
Proof.
  induction o as [|[k' v'] o IH]; simpl; [done|].
  intros [Hne Hk]%not_elem_of_cons.
  rewrite decide_False by done. by rewrite IH.
Qed.

Lemma keys_set_present o k v :
  k ∈ JsObject.keys o → JsObject.keys (JsObject.set k v o) = JsObject.keys o.
Proof.
  induction o as [|[k' v'] o IH]; simpl.
  - by intros ?%elem_of_nil.
  - intros Hk. case_decide as Hkk; simpl; [by subst|].
    f_equal. apply IH. apply elem_of_cons in Hk as [?|?]; done.
Qed.

Lemma NoDup_keys_set o k v :
  NoDup (JsObject.keys o) → NoDup (JsObject.keys (JsObject.set k v o)).
Proof.
  intros Hnd. destruct (decide (k ∈ JsObject.keys o)) as [Hk|Hk].
  - by rewrite keys_set_present.
  - rewrite set_fresh by done. unfold JsObject.keys. rewrite map_app. simpl.
    apply NoDup_app. split; [done|]. split; [|apply NoDup_singleton].
    intros x Hx ->%list_elem_of_singleton. done.
Qed.

Lemma get_Some_elem_of o k v :
  NoDup (JsObject.keys o) → (k, v) ∈ o → JsObject.get k o = Some v.
Proof.
  induction o as [|[k' v'] o IH]; simpl.
  - by intros _ ?%elem_of_nil.
  - intros [Hk' Hnd]%NoDup_cons [[= -> ->]|Hin]%elem_of_cons.
    + by rewrite decide_True.
    + rewrite decide_False; [by apply IH|].
      intros ->. apply Hk'. apply list_elem_of_fmap. by exists (k', v).
Qed.

Lemma elem_of_keys_get o k : k ∈ JsObject.keys o → ∃ v, (k, v) ∈ o.
Proof.
  intros ([k' v] & -> & Hin)%list_elem_of_fmap. by exists v.
Qed.
Lemma List_filter_complement {A : Type} (p : A → bool) (l : list A) :
  List.filter p l ++ List.filter (λ x, negb (p x)) l ≡ₚ l.
Proof.
  induction l as [|x l IH]; simpl; [done|].
  destruct (p x); simpl; [by f_equiv|].
  by rewrite <-Permutation_middle, IH.
Qed.

(** Enumeration rearranges the properties, and leaves them as they are
    when no key is an array index. *)
Lemma entries_Permutation o : JsObject.entries o ≡ₚ o.
Proof.
  unfold JsObject.entries. rewrite sort_Permutation.
  apply List_filter_complement.
Qed.

Lemma entries_plain o :
  Forall (λ kv, JsObject.arrayIndex kv.1 = None) o → JsObject.entries o = o.
Proof.
  intros Hplain. unfold JsObject.entries.
  assert (Hno : ∀ kv, kv ∈ o → JsObject.isIndex kv = false).
  { intros kv Hkv. unfold JsObject.isIndex.
    by rewrite (proj1 (Forall_forall _ _) Hplain kv Hkv). }
  rewrite (List_filter_none JsObject.isIndex o Hno). simpl.
  clear Hplain. induction o as [|kv o IH]; simpl; [done|].
  rewrite (Hno kv) by (by left). simpl. f_equal. apply IH.
  intros kv' Hkv'. apply Hno. by right.
Qed.
End JsObject_facts.

(** ** [_.groupBy] *)

Section groupBy_facts.
Context {A : Type} (iteratee : A → result string).

Lemma grouped_nil : grouped iteratee (mkGroups [] None) [].
Proof.
  split; [constructor|]. split.
  - intros k. simpl. by case_decide.
  - simpl. split; [by intros [? ?]|by intros (? & ?%elem_of_nil & _)].
Qed.

Lemma groupOf_snoc_eq k l x :
  iteratee x = Ok k →
  groupOf iteratee k (l ++ [x]) = Some (List.filter (keyIs iteratee k) l ++ [x]).
Proof.
  intros Hx. unfold groupOf. rewrite List.filter_app. simpl.
  unfold keyIs at 2. rewrite Hx, bool_decide_eq_true_2 by done.
  by destruct (List.filter (keyIs iteratee k) l).
Qed.

Lemma groupOf_snoc_ne k k' l x :
  iteratee x = Ok k → k ≠ k' → groupOf iteratee k' (l ++ [x]) = groupOf iteratee k' l.
Proof.
  intros Hx Hne. unfold groupOf. rewrite List.filter_app. simpl.
  unfold keyIs at 2. rewrite Hx, bool_decide_eq_false_2 by done.
  by rewrite app_nil_r.
Qed.

Lemma grouped_groupInto o l k x :
  iteratee x = Ok k → grouped iteratee o l → grouped iteratee (groupInto o k x) (l ++ [x]).
Proof.
  intros Hx (Hnd & Hget & Hproto). unfold groupInto, grouped.
  destruct (decide (k = "__proto__")) as [->|Hk]; simpl.
  - split; [done|]. split.
    + intros k'. rewrite Hget. case_decide as Hk'; [done|].
      by rewrite (groupOf_snoc_ne "__proto__" k' l x Hx).
    + split; [intros _|by eexists].
      exists x. split; [|done]. apply elem_of_app. right. by left.
  - split; [|split].
    + destruct (JsObject.get k (own o)); by apply NoDup_keys_set.
    + intros k'. destruct (decide (k = k')) as [<-|Hne].
      * rewrite decide_False by done.
        rewrite (groupOf_snoc_eq k l x Hx).
        pose proof (Hget k) as Hgk. rewrite decide_False in Hgk by done.
        unfold groupOf in Hgk.
        destruct (JsObject.get k (own o)) as [g|]; rewrite get_set_eq.
        -- destruct (List.filter (keyIs iteratee k) l); congruence.
        -- by destruct (List.filter (keyIs iteratee k) l).
      * trans (JsObject.get k' (own o)).
        { destruct (JsObject.get k (own o)); by apply get_set_ne. }
        rewrite Hget. case_decide; [done|].
        by rewrite (groupOf_snoc_ne k k' l x Hx Hne).
    + rewrite Hproto. split.
      * intros (y & Hy & Hky). exists y. split; [|done].
        apply elem_of_app. by left.
      * intros (y & [Hy|Hy%list_elem_of_singleton]%elem_of_app & Hky).
        -- by exists y.
        -- subst y. congruence.
Qed.

Lemma groupByFrom_grouped l : ∀ o pre o',
  grouped iteratee o pre → groupByFrom iteratee o l = Ok o' → grouped iteratee o' (pre ++ l).
Proof.
  induction l as [|x l IH]; intros o pre o' Hg; simpl.
  - intros [= <-]. by rewrite app_nil_r.
  - destruct (iteratee x) as [k|e] eqn:Hx; simpl; [|done].
    intros Ho'. rewrite (assoc_L (++) pre [x] l : pre ++ x :: l = (pre ++ [x]) ++ l).
    eapply IH; [|exact Ho']. by apply grouped_groupInto.
Qed.

Lemma groupBy_grouped l o : groupBy iteratee l = Ok o → grouped iteratee o l.
Proof. apply (groupByFrom_grouped l (mkGroups [] None) []), grouped_nil. Qed.

(** The grouping goes through when the iteratee never throws, and throws
    when the iteratee does. *)
Lemma groupByFrom_total l : ∀ o,
  Forall (λ x, ∃ k, iteratee x = Ok k) l → ∃ o', groupByFrom iteratee o l = Ok o'.
Proof.
  induction l as [|x l IH]; intros o Hl; simpl; [by eexists|].
  apply Forall_cons in Hl as [[k Hk] Hl]. rewrite Hk. simpl. by apply IH.
Qed.

Lemma groupByFrom_throws l : ∀ o x e,
  x ∈ l → iteratee x = Err e → ∃ e', groupByFrom iteratee o l = Err e'.
Proof.
  induction l as [|y l IH]; intros o x e Hx He; [by apply elem_of_nil in Hx|].
  simpl. destruct (iteratee y) as [k|e'] eqn:Hy; simpl; [|by eexists].
  apply elem_of_cons in Hx as [->|Hx]; [congruence|]. by eapply IH.
Qed.

Lemma groupOf_Some k l g :
  groupOf iteratee k l = Some g →
  g = List.filter (keyIs iteratee k) l ∧ ∃ x g', g = x :: g' ∧ x ∈ l ∧ iteratee x = Ok k.
Proof.
  unfold groupOf. destruct (List.filter (keyIs iteratee k) l) as [|x g'] eqn:Hf; [done|].
  intros [= <-]. split; [done|]. exists x, g'. split; [done|].
  assert (Hx : x ∈ List.filter (keyIs iteratee k) l) by (rewrite Hf; by left).
  apply elem_of_List_filter in Hx as [Hx Hk]. split; [done|].
  unfold keyIs in Hk. destruct (iteratee x); [|done].
  by apply bool_decide_eq_true in Hk as ->.
Qed.

Lemma groupOf_is_Some k l x :
  x ∈ l → iteratee x = Ok k → is_Some (groupOf iteratee k l).
Proof.
  intros Hx Hk. unfold groupOf.
  assert (Hin : x ∈ List.filter (keyIs iteratee k) l).
  { apply elem_of_List_filter. split; [done|].
    unfold keyIs. rewrite Hk. by apply bool_decide_eq_true. }
  destruct (List.filter (keyIs iteratee k) l); [by apply elem_of_nil in Hin|by eexists].
Qed.

(** The groups that the object owns: none under ["__proto__"], and under
    any other key the elements with that key, in order. *)
Lemma grouped_own o l k g :
  grouped iteratee o l → (k, g) ∈ own o →
  k ≠ "__proto__" ∧ g = List.filter (keyIs iteratee k) l ∧
  ∃ x g', g = x :: g' ∧ x ∈ l ∧ iteratee x = Ok k.
Proof.
  intros (Hnd & Hget & _) Hkg.
  apply (get_Some_elem_of (own o) k g Hnd) in Hkg. rewrite Hget in Hkg.
  case_decide; [done|]. split; [done|]. by apply groupOf_Some.
Qed.

Lemma grouped_key o l k x :
  grouped iteratee o l → x ∈ l → iteratee x = Ok k → k ≠ "__proto__" →
  k ∈ JsObject.keys (own o).
Proof.
  intros (_ & Hget & _) Hx Hk Hne.
  destruct (groupOf_is_Some k l x Hx Hk) as [g Hg].
  destruct (decide (k ∈ JsObject.keys (own o))) as [|Hnk]; [done|].
  apply get_None in Hnk. rewrite Hget, decide_False in Hnk by done. congruence.
Qed.

Lemma grouped_get_is_Some o l k :
  grouped iteratee o l → k ≠ "__proto__" →
  is_Some (JsObject.get k (own o)) ↔ ∃ x, x ∈ l ∧ iteratee x = Ok k.
Proof.
  intros (_ & Hget & _) Hne. rewrite Hget, decide_False by done. split.
  - intros [g (_ & x & g' & _ & Hx & Hk)%groupOf_Some]. by exists x.
  - intros (x & Hx & Hk). by eapply groupOf_is_Some.
Qed.

Lemma groupByFrom_Ok_all l : ∀ o o',
  groupByFrom iteratee o l = Ok o' → Forall (λ x, ∃ k, iteratee x = Ok k) l.
Proof.
  induction l as [|x l IH]; intros o o'; simpl; [by constructor|].
  destruct (iteratee x) as [k|e] eqn:Hx; simpl; [|done].
  intros Ho'. constructor; [by eexists|]. by eapply IH.
Qed.

Lemma groupByFrom_Err l : ∀ o e,
  groupByFrom iteratee o l = Err e → ∃ x, x ∈ l ∧ iteratee x = Err e.
Proof.
  induction l as [|x l IH]; intros o e; simpl; [done|].
  destruct (iteratee x) as [k|e'] eqn:Hx; simpl.
  - intros (y & Hy & He)%IH. exists y. split; [by right|done].
  - intros [= ->]. exists x. split; [by left|done].
Qed.
End groupBy_facts.

Lemma mapM_Ok {A B : Type} (f : A → result B) (l : list A) (bs : list B) :
  mapM f l = Ok bs ↔ Forall2 (λ a b, f a = Ok b) l bs.
Proof.
  revert bs. induction l as [|a l IH]; intros bs; simpl.
  - split; [intros [= <-]; constructor|by intros ->%Forall2_nil_inv_l].
  - destruct (f a) as [b|e] eqn:Ha; simpl.
    + destruct (mapM f l) as [bs'|e]; simpl.
      * split.
        -- intros [= <-]. constructor; [done|by apply IH].
        -- intros (b' & bs'' & Hb & Hbs & ->)%Forall2_cons_inv_l.
           apply IH in Hbs. unfold mret, result_ret. congruence.
      * split; [done|].
        intros (b' & bs'' & Hb & Hbs & ->)%Forall2_cons_inv_l.
        by apply IH in Hbs.
    + split; [done|].
      intros (b' & bs'' & Hb & Hbs & ->)%Forall2_cons_inv_l. congruence.
Qed.

Lemma mapM_total {A B : Type} (f : A → result B) (l : list A) :
  Forall (λ a, ∃ b, f a = Ok b) l → ∃ bs, mapM f l = Ok bs.
Proof.
  induction 1 as [|a l [b Hb] Hl [bs Hbs]]; simpl; [by eexists|].
  rewrite Hb. simpl. rewrite Hbs. by eexists.
Qed.

(** ** [extractData] *)

Lemma get_elem_of {V : Type} (o : JsObject.t V) k v :
  JsObject.get k o = Some v → (k, v) ∈ o.
Proof.
  induction o as [|[k' v'] o IH]; simpl; [done|].
  case_decide as Hk; [intros [= ->]; subst; by left|].
  intros H. right. by apply IH.
Qed.

Section extractData_facts.
Variable cfg : Config.

Lemma canonicalEmail_authored c :
  is_Some (author c) → ∃ k, canonicalEmail cfg c = Ok k.
Proof.
  intros [a Ha]. unfold canonicalEmail. rewrite Ha.
  destruct (emailAliases cfg) as [aliases|]; [|by eexists].
  destruct (aliases !! _); [by eexists|].
  destruct (JsObject.inherited _); by eexists.
Qed.

Lemma canonicalEmail_authorless c :
  author c = None →
  canonicalEmail cfg c = Err (TypeError "Cannot read property 'email' of null").
Proof. intros Ha. unfold canonicalEmail. by rewrite Ha. Qed.

Lemma canonicalEmail_Ok c k :
  canonicalEmail cfg c = Ok k → is_Some (author c).
Proof. unfold canonicalEmail. destruct (author c); [by eexists|done]. Qed.

Lemma canonicalEmail_Err c e :
  canonicalEmail cfg c = Err e →
  author c = None ∧ e = TypeError "Cannot read property 'email' of null".
Proof.
  unfold canonicalEmail. destruct (author c) as [a|]; [|by intros [= <-]].
  destruct (emailAliases cfg) as [aliases|]; [|done].
  destruct (aliases !! _); [done|]. by destruct (JsObject.inherited _).
Qed.

(** What the callback of [_.map] gives for a group. *)
Lemma authorWork_Ok k g w :
  authorWork cfg (k, g) = Ok w →
  AuthorWork.email w = k ∧
  AuthorWork.commits w = length g ∧
  AuthorWork.hours w = hoursOfSorted cfg (sortDates (date <$> g)) ∧
  ∃ first a, head g = Some first ∧ author first = Some a ∧ AuthorWork.name w = name a.
Proof.
  unfold authorWork. destruct g as [|first g]; [done|].
  destruct (author first) as [a|] eqn:Ha; [|done].
  intros [= <-]. simpl. repeat split. by exists first, a.
Qed.

(** The groups on which the callback of [_.map] is called: all that the
    object owns, or the one under ["0"] when the object is walked by
    index. *)
Lemma authorWorksOf_Ok commits ws :
  authorWorksOf cfg commits = Ok ws →
  ∃ o groups,
    grouped (canonicalEmail cfg) o commits ∧
    Forall2 (λ kg w, authorWork cfg kg = Ok w) groups ws ∧
    NoDup groups.*1 ∧
    (∀ kg, kg ∈ groups → kg ∈ own o) ∧
    (proto o = None ∨ is_Some (JsObject.get "length" (own o)) → groups ≡ₚ own o) ∧
    (is_Some (proto o) → JsObject.get "length" (own o) = None →
     ∃ g, groups = [("0", g)]).
Proof.
  unfold authorWorksOf.
  destruct (groupBy (canonicalEmail cfg) commits) as [o|e] eqn:Hg; [|done].
  cbn [mbind result_bind].
  pose proof (groupBy_grouped _ _ _ Hg) as Hgr. intros Hws. exists o.
  assert (Hall : (proto o = None ∨ is_Some (JsObject.get "length" (own o))) →
    mapM (authorWork cfg) (JsObject.entries (own o)) = Ok ws →
    ∃ groups,
      grouped (canonicalEmail cfg) o commits ∧
      Forall2 (λ kg w, authorWork cfg kg = Ok w) groups ws ∧
      NoDup groups.*1 ∧
      (∀ kg, kg ∈ groups → kg ∈ own o) ∧
      (proto o = None ∨ is_Some (JsObject.get "length" (own o)) → groups ≡ₚ own o) ∧
      (is_Some (proto o) → JsObject.get "length" (own o) = None →
       ∃ g, groups = [("0", g)])).
  { intros Hcase Hm%mapM_Ok. exists (JsObject.entries (own o)).
    split; [done|]. split; [done|]. split; [|split; [|split]].
    - rewrite (entries_Permutation (own o)). by destruct Hgr as [? _].
    - intros kg. by rewrite (entries_Permutation (own o)).
    - intros _. apply entries_Permutation.
    - intros [arr Hp] Hl. destruct Hcase as [Hn|[? Hs]]; congruence. }
  destruct (proto o) as [arr|] eqn:Hp; [|apply Hall; [by left|done]].
  destruct (JsObject.get "length" (own o)) as [?|] eqn:Hlen;
    [apply Hall; [by right|done]|].
  destruct (JsObject.get "0" (own o)) as [g|] eqn:H0; [|done].
  destruct (authorWork cfg ("0", g)) as [w|e] eqn:Hw; [|done].
  cbn [mbind result_bind] in Hws.
  injection Hws as <-. exists [("0", g)].
  split; [done|]. split; [by repeat constructor|].
  split; [apply NoDup_singleton|]. split; [|split].
  - intros kg ->%list_elem_of_singleton. by apply get_elem_of.
  - intros [?|[? ?]]; done.
  - intros _ _. by exists g.
Qed.

Lemma authorWorks_emails (groups : list (string * list Commit)) ws :
  Forall2 (λ kg w, authorWork cfg kg = Ok w) groups ws →
  AuthorWork.email <$> ws = groups.*1.
Proof.
  induction 1 as [|[k g] w groups ws Hw _ IH]; [done|].
  apply authorWork_Ok in Hw as [Hk _].
  rewrite !fmap_cons. simpl. by rewrite Hk, IH.
Qed.

(** The author works of a list of commits: at most one for a canonical
    email, none for ["__proto__"], each with the count, hours and first
    name of the commits with its email; and one for every canonical email
    that occurs when none is ["__proto__"]. *)
Lemma authorWorksOf_spec commits ws :
  authorWorksOf cfg commits = Ok ws →
  NoDup (AuthorWork.email <$> ws) ∧
  (∀ k, k ∈ AuthorWork.email <$> ws →
        k ≠ "__proto__" ∧ ∃ c, c ∈ commits ∧ canonicalEmail cfg c = Ok k) ∧
  Forall (λ w,
    let g := attributedTo cfg (AuthorWork.email w) commits in
    AuthorWork.commits w = length g ∧
    AuthorWork.hours w = hoursOfSorted cfg (sortDates (date <$> g)) ∧
    ∃ first a, head g = Some first ∧ author first = Some a ∧
               AuthorWork.name w = name a) ws ∧
  (Forall (λ c, canonicalEmail cfg c ≠ Ok "__proto__") commits →
   ∀ k, (∃ c, c ∈ commits ∧ canonicalEmail cfg c = Ok k) →
        k ∈ AuthorWork.email <$> ws).
Proof.
  intros (o & groups & Hgr & Hws & Hnd & Hsub & Hall & _)%authorWorksOf_Ok.
  pose proof (authorWorks_emails groups ws Hws) as Hemails.
  split; [by rewrite Hemails|]. split; [|split].
  - intros k. rewrite Hemails. intros ([k' g] & -> & Hkg)%list_elem_of_fmap.
    apply Hsub in Hkg.
    destruct (grouped_own _ _ _ _ _ Hgr Hkg) as (Hne & _ & c & g' & _ & Hc & Hk).
    split; [done|]. by exists c.
  - apply Forall_forall. intros w Hw.
    apply list_elem_of_lookup in Hw as [i Hi].
    destruct (Forall2_lookup_r _ _ _ _ _ Hws Hi) as ([k g] & Hkg & Hw).
    apply authorWork_Ok in Hw as (Hk & Hn & Hh & Hfirst).
    apply list_elem_of_lookup_2, Hsub in Hkg.
    destruct (grouped_own _ _ _ _ _ Hgr Hkg) as (_ & Hg & _).
    simpl. unfold attributedTo. rewrite Hk, <-Hg. done.
  - intros Hno k (c & Hc & Hk). rewrite Hemails.
    assert (Hne : k ≠ "__proto__").
    { intros ->. by apply (proj1 (Forall_forall _ _) Hno c Hc). }
    assert (Hp : proto o = None).
    { destruct Hgr as (_ & _ & Hproto). destruct (proto o) as [arr|]; [|done].
      destruct (proj1 Hproto) as (x & Hx & Hkx); [by eexists|].
      by destruct (proj1 (Forall_forall _ _) Hno x Hx). }
    rewrite (Hall (or_introl Hp)). by eapply grouped_key.
Qed.

(** The canonical emails that get an author work: those that occur, other
    than ["__proto__"]; and only ["0"] when ["__proto__"] occurs and
    ["length"] does not. *)
Lemma authorWorksOf_keys commits ws :
  authorWorksOf cfg commits = Ok ws →
  ∀ k, k ∈ AuthorWork.email <$> ws ↔
       occursIn cfg commits k ∧ k ≠ "__proto__" ∧
       (occursIn cfg commits "__proto__" → ¬ occursIn cfg commits "length" → k = "0").
Proof.
  intros (o & groups & Hgr & Hws & Hnd & Hsub & Hall & Hidx)%authorWorksOf_Ok k.
  rewrite (authorWorks_emails groups ws Hws).
  pose proof Hgr as (_ & _ & Hproto).
  pose proof (grouped_get_is_Some _ o commits "length" Hgr) as Hlen.
  split.
  - intros ([k' g] & -> & Hkg)%list_elem_of_fmap. simpl.
    destruct (grouped_own _ _ _ _ _ Hgr (Hsub _ Hkg)) as (Hne & _ & c & g' & _ & Hc & Hk).
    split; [by exists c|]. split; [done|]. intros Hp Hnl.
    destruct Hidx as [g0 ->]; [by apply Hproto| |].
    + destruct (JsObject.get "length" (own o)) eqn:Hl; [|done].
      destruct Hnl. apply Hlen; [done|by eexists].
    + by apply list_elem_of_singleton in Hkg as [= -> _].
  - intros ((c & Hc & Hk) & Hne & Hzero).
    destruct (proto o) as [arr|] eqn:Hp.
    + destruct (JsObject.get "length" (own o)) as [gl|] eqn:Hl.
      * rewrite (Hall (or_intror (mk_is_Some _ _ eq_refl))). by eapply grouped_key.
      * destruct Hidx as [g0 ->]; [by eexists|done|].
        rewrite Hzero; [by left|by apply Hproto|].
        intros Hocc. apply Hlen in Hocc as [? ?]; [congruence|done].
    + rewrite (Hall (or_introl eq_refl)). by eapply grouped_key.
Qed.

Lemma authorWorksOf_authored commits ws :
  authorWorksOf cfg commits = Ok ws → Forall (λ c, is_Some (author c)) commits.
Proof.
  unfold authorWorksOf, groupBy.
  destruct (groupByFrom _ _ _) as [o|e] eqn:Hg; simpl; [|done]. intros _.
  apply groupByFrom_Ok_all in Hg.
  eapply Forall_impl; [exact Hg|]. intros c [k Hk]. by eapply canonicalEmail_Ok.
Qed.

(** The callback of [_.map] goes through on every group that the object
    owns. *)
Lemma authorWork_total o commits k g :
  grouped (canonicalEmail cfg) o commits → (k, g) ∈ own o →
  ∃ w, authorWork cfg (k, g) = Ok w.
Proof.
  intros Hgr Hkg.
  destruct (grouped_own _ _ _ _ _ Hgr Hkg) as (_ & _ & c & g' & -> & _ & Hk).
  apply canonicalEmail_Ok in Hk as [a Ha].
  unfold authorWork. rewrite Ha. by eexists.
Qed.

(** When the author works exist, and the error when they do not. *)
Lemma authorWorksOf_cases commits :
  match authorWorksOf cfg commits with
  | Ok ws =>
      Forall (λ c, is_Some (author c)) commits ∧
      (occursIn cfg commits "__proto__" →
       occursIn cfg commits "length" ∨ occursIn cfg commits "0")
  | Err e =>
      (∃ c, c ∈ commits ∧ author c = None ∧
            e = TypeError "Cannot read property 'email' of null") ∨
      (Forall (λ c, is_Some (author c)) commits ∧
       occursIn cfg commits "__proto__" ∧
       ¬ occursIn cfg commits "length" ∧ ¬ occursIn cfg commits "0" ∧
       e = TypeError "Cannot read property 'author' of undefined")
  end.
Proof.
  destruct (authorWorksOf cfg commits) as [ws|e] eqn:Hws.
  { split; [by eapply authorWorksOf_authored|]. intros Hp.
    pose proof (authorWorksOf_keys commits ws Hws) as Hkeys.
    apply authorWorksOf_Ok in Hws as (o & groups & Hgr & Hws & _ & Hsub & _ & Hidx).
    pose proof Hgr as (_ & _ & Hproto).
    destruct (JsObject.get "length" (own o)) as [gl|] eqn:Hl.
    - left. apply (grouped_get_is_Some _ o commits "length" Hgr); [done|by eexists].
    - right. destruct Hidx as [g0 ->]; [by apply Hproto|done|].
      apply (grouped_get_is_Some _ o commits "0" Hgr); [done|].
      exists g0. apply (get_Some_elem_of (own o)); [by destruct Hgr|].
      apply Hsub. by left. }
  unfold authorWorksOf, groupBy in Hws.
  destruct (groupByFrom _ _ _) as [o|e'] eqn:Hg; cbn [mbind result_bind] in Hws.
  - assert (Hall : Forall (λ c, is_Some (author c)) commits).
    { apply groupByFrom_Ok_all in Hg.
      eapply Forall_impl; [exact Hg|]. intros c [k Hk]. by eapply canonicalEmail_Ok. }
    apply (groupBy_grouped (canonicalEmail cfg)) in Hg as Hgr.
    assert (Hmap : ∀ e, mapM (authorWork cfg) (JsObject.entries (own o)) ≠ Err e).
    { intros e1 He1.
      destruct (mapM_total (authorWork cfg) (JsObject.entries (own o))) as [ws Hm];
        [|congruence].
      apply Forall_forall. intros [k g] Hkg. rewrite (entries_Permutation (own o)) in Hkg.
      by eapply authorWork_total. }
    pose proof Hgr as (_ & _ & Hproto).
    destruct (proto o) as [arr|] eqn:Hp; [|by destruct (Hmap e)].
    destruct (JsObject.get "length" (own o)) as [gl|] eqn:Hl; [by destruct (Hmap e)|].
    destruct (JsObject.get "0" (own o)) as [g0|] eqn:H0.
    + destruct (authorWork_total o commits "0" g0 Hgr (get_elem_of _ _ _ H0)) as [w Hw].
      rewrite Hw in Hws. done.
    + injection Hws as <-. right. split; [done|]. split; [by apply Hproto|].
      split; [|split; [|done]].
      * intros [? ?]%(grouped_get_is_Some _ o commits "length" Hgr); [congruence|done].
      * intros [? ?]%(grouped_get_is_Some _ o commits "0" Hgr); [congruence|done].
  - injection Hws as ->. apply groupByFrom_Err in Hg as (c & Hc & Hk).
    left. exists c. split; [done|]. by apply canonicalEmail_Err.
Qed.

(** The author works exist exactly when every commit has an author and,
    if ["__proto__"] is a canonical email, so is ["length"] or ["0"]. *)
Lemma authorWorksOf_resolves commits :
  (∃ ws, authorWorksOf cfg commits = Ok ws) ↔
  Forall (λ c, is_Some (author c)) commits ∧
  (occursIn cfg commits "__proto__" →
   occursIn cfg commits "length" ∨ occursIn cfg commits "0").
Proof.
  pose proof (authorWorksOf_cases commits) as Hc.
  destruct (authorWorksOf cfg commits) as [ws|e]; split.
  - done.
  - by eexists.
  - by intros [? ?].
  - intros [Hall Himp]. destruct Hc as [(c & Hc & Ha & _)|(_ & Hp & Hl & H0 & _)].
    + destruct (proj1 (Forall_forall _ _) Hall c Hc) as [a Ha']. congruence.
    + destruct (Himp Hp); done.
Qed.

Lemma authorWorksOf_total commits :
  Forall (λ c, is_Some (author c)) commits →
  Forall (λ c, canonicalEmail cfg c ≠ Ok "__proto__") commits →
  ∃ ws, authorWorksOf cfg commits = Ok ws.
Proof.
  intros Hall Hno. apply authorWorksOf_resolves. split; [done|].
  intros (c & Hc & Hk). by destruct (proj1 (Forall_forall _ _) Hno c Hc).
Qed.
End extractData_facts.

(** ** The report *)

Lemma sortBy_Permutation {A : Type} (property : A → Qc) (l : list A) :
  sortBy property l ≡ₚ l.
Proof. apply sort_Permutation. Qed.

Lemma sortBy_StronglySorted {A : Type} (property : A → Qc) (l : list A) :
  StronglySorted (λ x y, (property x ≤ property y)%Qc) (sortBy property l).
Proof.
  apply (StronglySorted_weaken
           (λ x y, bool_decide (property x ≤ property y)%Qc = true)).
  - intros x y. apply bool_decide_eq_true.
  - apply sort_StronglySorted.
    + intros x y Hxy. apply bool_decide_eq_false in Hxy.
      apply bool_decide_eq_true. apply Qclt_le_weak. by apply Qclt_nge.
    + intros x y z Hxy%bool_decide_eq_true Hyz%bool_decide_eq_true.
      apply bool_decide_eq_true. by etrans.
Qed.

Lemma StronglySorted_fmap_2 {A B : Type} (f : A → B) (R : B → B → Prop) (l : list A) :
  StronglySorted (λ x y, R (f x) (f y)) l → StronglySorted R (f <$> l).
Proof.
  induction 1 as [|x l Hl IH Hx]; [constructor|].
  rewrite fmap_cons. constructor; [exact IH|].
  apply Forall_fmap. exact Hx.
Qed.

Lemma sumOf_Permutation l l' : l ≡ₚ l' → sumOf l = sumOf l'.
Proof.
  induction 1 as [|x l l' _ IH|x y l|l l' l'' _ IH1 _ IH2]; simpl.
  - done.
  - by rewrite IH.
  - rewrite !Qcplus_assoc. f_equal. apply Qcplus_comm.
  - by rewrite IH1.
Qed.

Lemma sumHours_Permutation ws ws' : ws ≡ₚ ws' → sumHours ws = sumHours ws'.
Proof. intros Hp. unfold sumHours. apply sumOf_Permutation. by rewrite Hp. Qed.

Lemma keys_entryOf (ws : list AuthorWork.t) :
  JsObject.keys (entryOf <$> ws) = AuthorWork.email <$> ws.
Proof. unfold JsObject.keys. induction ws as [|w ws IH]; simpl; [done|by f_equal]. Qed.

Lemma fold_set_fresh (ws : list AuthorWork.t) : ∀ acc : JsObject.t Entry.t,
  NoDup (JsObject.keys acc ++ (AuthorWork.email <$> ws)) →
  fold_left (λ sortedWork w,
      JsObject.set (AuthorWork.email w) (omitEmail w) sortedWork) ws acc
  = acc ++ (entryOf <$> ws).
Proof.
  induction ws as [|w ws IH]; intros acc Hnd; simpl.
  - by rewrite app_nil_r.
  - rewrite fmap_cons in Hnd.
    assert (Hfresh : AuthorWork.email w ∉ JsObject.keys acc).
    { apply NoDup_app in Hnd as (_ & Hd & _). intros Hw. apply (Hd _ Hw). by left. }
    rewrite set_fresh by done. rewrite IH.
    + by rewrite <-app_assoc.
    + unfold JsObject.keys in *. rewrite map_app. simpl.
      rewrite <-app_assoc. exact Hnd.
Qed.

Lemma sortedEntries_fresh ws :
  NoDup (AuthorWork.email <$> ws) →
  sortedEntries ws = entryOf <$> sortBy AuthorWork.hours ws.
Proof.
  intros Hnd. unfold sortedEntries. rewrite fold_set_fresh; [done|].
  simpl. by rewrite (sortBy_Permutation AuthorWork.hours ws).
Qed.

Lemma fold_hours (l : list (string * Entry.t)) : ∀ sum,
  fold_left (λ sum (kv : string * Entry.t), (sum + Entry.hours kv.2)%Qc) l sum
  = (sum + sumOf ((λ kv, Entry.hours kv.2) <$> l))%Qc.
Proof.
  induction l as [|kv l IH]; intros sum; simpl.
  - by rewrite Qcplus_0_r.
  - rewrite IH. by rewrite Qcplus_assoc.
Qed.

(** The total does not depend on the order of enumeration. *)
Lemma totalHoursOf_sumOf (o : JsObject.t Entry.t) :
  totalHoursOf o = sumOf ((λ kv, Entry.hours kv.2) <$> o).
Proof.
  unfold totalHoursOf. rewrite fold_hours, Qcplus_0_l.
  apply sumOf_Permutation. by rewrite (entries_Permutation o).
Qed.

Lemma totalHoursOf_entries (ws : list AuthorWork.t) :
  totalHoursOf (entryOf <$> ws) = sumHours ws.
Proof.
  rewrite totalHoursOf_sumOf. unfold sumHours. f_equal.
  rewrite <-list_fmap_compose. done.
Qed.

(** [sortedWork] in closed form, given the author works. *)
Lemma sortedWorkOf_Ok cfg commits ws :
  authorWorksOf cfg commits = Ok ws →
  sortedWorkOf cfg commits
  = Ok (JsObject.set "total"
          {| Entry.name := None;
             Entry.hours := sumHours ws;
             Entry.commits := length commits |}
          (entryOf <$> sortBy AuthorWork.hours ws)).
Proof.
  intros Hws. unfold sortedWorkOf. rewrite Hws. simpl.
  apply authorWorksOf_spec in Hws as (Hnd & _).
  rewrite (sortedEntries_fresh ws Hnd), totalHoursOf_entries.
  by rewrite (sumHours_Permutation _ _ (sortBy_Permutation AuthorWork.hours ws)).
Qed.

Lemma NoDup_fmap_List_filter {A B : Type} (f : A → B) (p : A → bool) (l : list A) :
  NoDup (f <$> l) → NoDup (f <$> List.filter p l).
Proof.
  induction l as [|x l IH]; csimpl; [done|].
  intros [Hx Hnd]%NoDup_cons.
  destruct (p x); [|by apply IH].
  csimpl. apply NoDup_cons. split; [|by apply IH].
  intros (y & Hy & Hin)%list_elem_of_fmap.
  apply elem_of_List_filter in Hin as [Hin _].
  apply Hx. rewrite Hy. by apply list_elem_of_fmap_2.
Qed.

(** The commits that [getCommits] resolves to have pairwise distinct ids. *)
Lemma getCommits_NoDup cfg repo b commits :
  getCommits cfg repo b = Ok commits → NoDup (sha <$> commits).
Proof.
  unfold getCommits.
  destruct (mapM (getBranchLatestCommit repo) _) as [latest|e]; simpl; [|done].
  destruct (mapM (getBranchCommits cfg) latest) as [perBranch|e]; simpl; [|done].
  intros [= <-]. apply NoDup_fmap_List_filter, NoDup_uniqFrom.
Qed.

(** With an author on a commit, the key of its group is the alias of its
    email when the alias object owns one, else what the object inherits
    under that name, else the email, ["unknown"] standing for an empty
    email; without an alias object it is the email. *)
Lemma canonicalEmail_authored_spec cfg c a :
  author c = Some a →
  let raw := if decide (email a = "") then "unknown" else email a in
  canonicalEmail cfg c
  = Ok (match emailAliases cfg with
        | Some aliases => default (default raw (JsObject.inherited raw)) (aliases !! raw)
        | None => raw
        end).
Proof.
  intros Ha. unfold canonicalEmail. rewrite Ha. simpl.
  destruct (emailAliases cfg) as [aliases|]; simpl; [|done].
  destruct (aliases !! _); simpl; [done|]. by destruct (JsObject.inherited _).
Qed.

(** C3, at a commit without author. [getBranchCommits] hands the commit on
    with [author: null]; the iteratee of the grouping then throws on
    [commit.author.email], and [extractData] is rejected: no ["unknown"]
    group is made. *)
Theorem authorless_commit_rejected :
  let c := mkCommit "c0" 0 "initial import" None in
  let repo : Repository := [("refs/heads/master", Ended [c])] in
  getCommits config repo (branch config) = Ok [c] ∧
  canonicalEmail config c = Err (TypeError "Cannot read property 'email' of null") ∧
  groupBy (canonicalEmail config) [c]
  = Err (TypeError "Cannot read property 'email' of null") ∧
  extractData config repo = Err (TypeError "Cannot read property 'email' of null").
Proof. by vm_compute. Qed.

(** Any commit without author among the commits makes the report fail. *)
Lemma sortedWorkOf_authorless cfg commits c :
  c ∈ commits → author c = None → ∃ e, sortedWorkOf cfg commits = Err e.
Proof.
  intros Hc Ha. unfold sortedWorkOf, authorWorksOf, groupBy.
  destruct (groupByFrom_throws (canonicalEmail cfg) commits (mkGroups [] None) c _ Hc
              (canonicalEmail_authorless cfg c Ha)) as [e He].
  rewrite He. by eexists.
Qed.

(** C8, at a commit whose author has the email ["total"]. The report
    should hold an entry for every author and a total whose hours are the
    sum of theirs. Here [sortedWork.total = {...}] replaces the entry of
    that author: the total counts the hours and commits of both authors,
    while the only entry of an author left in the report is the other
    one's, with fewer hours. *)
Theorem total_replaces_author_entry :
  ∃ sortedWork total,
    getCommits config collisionRepo (branch config) = Ok collisionCommits ∧
    occursIn config collisionCommits "total" ∧
    sortedWorkOf config collisionCommits = Ok sortedWork ∧
    JsObject.keys sortedWork = ["total"; "alice@example.org"] ∧
    JsObject.get "total" sortedWork = Some total ∧
    Entry.name total = None ∧
    Entry.commits total = 4%nat ∧
    Entry.hours total = Q2Qc (11 # 6) ∧
    sumOf ((λ kv, Entry.hours kv.2) <$> perAuthor sortedWork) = Q2Qc (4 # 3) ∧
    Entry.hours total ≠ sumOf ((λ kv, Entry.hours kv.2) <$> perAuthor sortedWork) ∧
    extractData config collisionRepo = Ok (VNumber (Entry.hours total)).
Proof.
  assert (Hget : getCommits config collisionRepo (branch config) = Ok collisionCommits)
    by reflexivity.
  destruct (sortedWorkOf config collisionCommits) as [sortedWork|e] eqn:Hs;
    [|discriminate Hs].
  pose proof Hs as Hs'. vm_compute in Hs'. injection Hs' as <-.
  eexists _, _. split; [exact Hget|].
  split; [eexists; split; [right; by left|reflexivity]|].
  split; [reflexivity|]. split; [reflexivity|].
  split; [reflexivity|]. split; [reflexivity|]. split; [reflexivity|].
  assert (H1 : Entry.hours
                 {| Entry.name := None;
                    Entry.hours := {| this := 11 # 6; canon := Qred_involutive (11 # 6) |};
                    Entry.commits := 4 |} = Q2Qc (11 # 6))
    by (by apply Qc_is_canon).
  split; [exact H1|].
  assert (H2 : sumOf ((λ kv : string * Entry.t, Entry.hours kv.2) <$>
      perAuthor
        [("total",
          {| Entry.name := None;
             Entry.hours := {| this := 11 # 6; canon := Qred_involutive (11 # 6) |};
             Entry.commits := 4 |});
         ("alice@example.org",
          {| Entry.name := Some "Alice";
             Entry.hours := {| this := 4 # 3; canon := Qred_involutive (80 # 60) |};
             Entry.commits := 3 |})]) = Q2Qc (4 # 3))
    by (by apply Qc_is_canon).
  split; [exact H2|]. split.
  - rewrite H1, H2. intros H. apply (f_equal this) in H. discriminate H.
  - unfold extractData. rewrite Hget. cbn [mbind result_bind]. rewrite Hs.
    reflexivity.
Qed.

(** C2, as stated, fails: on the example repository [extractData] does not
    resolve to the report that it has built. *)
Lemma extractData_not_the_report : ¬ handsBackReport config exampleRepo.
Proof.
  intros (commits & sortedWork & _ & _ & He).
  vm_compute in He. discriminate He.
Qed.

(** C2, amended. When every commit of the set that [getCommits] resolves to
    has an author and none has the canonical email ["__proto__"],
    [extractData] builds the report: the entries of the
    author works, each with a name, hours and commits, under their
    canonical emails, no email twice, in ascending order of hours; then the
    total with the sum of the hours and the number of commits, stored under
    ["total"] (behind the entries when no canonical email is ["total"],
    and enumerated in this order when none is an array index either).
    What it resolves to is the number [total.hours] alone. *)
Theorem extractData_returns_total_hours cfg repo commits :
  getCommits cfg repo (branch cfg) = Ok commits →
  Forall (λ c, is_Some (author c)) commits →
  Forall (λ c, canonicalEmail cfg c ≠ Ok "__proto__") commits →
  ∃ (entries : JsObject.t Entry.t) (total : Entry.t),
    sortedWorkOf cfg commits = Ok (JsObject.set "total" total entries) ∧
    StronglySorted (λ e1 e2, (Entry.hours e1.2 ≤ Entry.hours e2.2)%Qc) entries ∧
    NoDup (JsObject.keys entries) ∧
    (∀ k, k ∈ JsObject.keys entries ↔
          ∃ c, c ∈ commits ∧ canonicalEmail cfg c = Ok k) ∧
    Forall (λ e, is_Some (Entry.name e.2)) entries ∧
    total = {| Entry.name := None;
               Entry.hours := totalHoursOf entries;
               Entry.commits := length commits |} ∧
    ("total" ∉ JsObject.keys entries →
       JsObject.set "total" total entries = entries ++ [("total", total)] ∧
       (Forall (λ kv, JsObject.arrayIndex kv.1 = None) entries →
          JsObject.entries (JsObject.set "total" total entries)
          = entries ++ [("total", total)])) ∧
    extractData cfg repo = Ok (VNumber (Entry.hours total)).
Proof.
  intros Hget Hall Hno.
  destruct (authorWorksOf_total cfg commits Hall Hno) as [ws Hws].
  pose proof (sortedWorkOf_Ok cfg commits ws Hws) as Hs.
  destruct (authorWorksOf_spec cfg commits ws Hws) as (Hnd & Hkeys & _ & Hcover).
  pose proof (sortBy_Permutation AuthorWork.hours ws) as Hp.
  eexists (entryOf <$> sortBy AuthorWork.hours ws), _.
  split; [exact Hs|]. split; [|split; [|split; [|split; [|split; [|split]]]]].
  - apply StronglySorted_fmap_2. apply sortBy_StronglySorted.
  - by rewrite keys_entryOf, Hp.
  - intros k. rewrite keys_entryOf, Hp. split; [by intros [_ ?]%Hkeys|].
    by apply Hcover.
  - apply Forall_fmap, Forall_forall. intros w _. by eexists.
  - by rewrite totalHoursOf_entries, (sumHours_Permutation _ _ Hp).
  - intros Hfresh. rewrite set_fresh by done. split; [done|].
    intros Hplain. apply entries_plain, Forall_app. split; [done|].
    by repeat constructor.
  - unfold extractData. rewrite Hget. simpl. rewrite Hs. simpl.
    by rewrite get_set_eq.
Qed.

Lemma extractData_returns_total_hours_witness :
  Forall (λ c, is_Some (author c)) exampleCommits ∧
  Forall (λ c, canonicalEmail config c ≠ Ok "__proto__") exampleCommits ∧
  ∃ sortedWork total,
    sortedWorkOf config exampleCommits = Ok sortedWork ∧
    JsObject.get "total" sortedWork = Some total ∧
    extractData config exampleRepo = Ok (VNumber (Entry.hours total)).
Proof.
  assert (Hall : Forall (λ c, is_Some (author c)) exampleCommits).
  { repeat constructor; by eexists. }
  assert (Hno : Forall (λ c, canonicalEmail config c ≠ Ok "__proto__") exampleCommits).
  { repeat constructor; intros H; vm_compute in H; discriminate H. }
  split; [exact Hall|]. split; [exact Hno|].
  destruct (extractData_returns_total_hours config exampleRepo exampleCommits)
    as (entries & total & Hs & _ & _ & _ & _ & _ & _ & He);
    [reflexivity|exact Hall|exact Hno|].
  exists (JsObject.set "total" total entries), total.
  split; [exact Hs|]. split; [apply get_set_eq|exact He].
Defined.

(** * Further properties of [estimateHours] *)

Section estimate_bounds.
Variable cfg : Config.

Lemma Qc_of_Z_le n m : n ≤ m → (Qc_of_Z n ≤ Qc_of_Z m)%Qc.
Proof. apply (proj1 (Z2Qc_inj_le n m)). Qed.

Lemma Qc_of_Z_pos n : 0 < n → (0 < Qc_of_Z n)%Qc.
Proof. intros H. rewrite <-Z2Qc_inj_0. apply (proj1 (Z2Qc_inj_lt 0 n)), H. Qed.

Lemma Qcmin_le_r x y : (Qcmin x y ≤ y)%Qc.
Proof. unfold Qcmin. case_decide; [done|apply Qcle_refl]. Qed.

Lemma Qcdiv_le_mono_60 x y : (x ≤ y)%Qc → (x / Qc_of_Z 60 ≤ y / Qc_of_Z 60)%Qc.
Proof.
  intros Hxy. unfold Qcdiv. apply Qcmult_le_mono_nonneg_r; [|done].
  apply Qclt_le_weak, Qcinv_pos, Qc_of_Z_pos. lia.
Qed.

Lemma credit_le_cap d :
  (credit cfg d
   ≤ Qc_of_Z (Z.max (maxCommitDiffInMinutes cfg) (firstCommitAdditionInMinutes cfg)))%Qc.
Proof.
  unfold credit. case_decide as Hlt.
  - apply Qclt_le_weak. eapply Qclt_le_trans; [exact Hlt|].
    apply Qc_of_Z_le. lia.
  - etrans; [apply Qcmin_le_r|]. apply Qc_of_Z_le. lia.
Qed.

Lemma creditedMinutes_le_cap s :
  (creditedMinutes cfg s
   ≤ Qc_of_Z (Z.of_nat (pred (length s)))
     * Qc_of_Z (Z.max (maxCommitDiffInMinutes cfg) (firstCommitAdditionInMinutes cfg)))%Qc.
Proof.
  induction s as [|a s IH].
  { change (Z.of_nat (pred (length (@nil Z)))) with 0.
    rewrite Z2Qc_inj_0, Qcmult_0_l. apply Qcle_refl. }
  destruct s as [|b s].
  { change (Z.of_nat (pred (length [a]))) with 0.
    rewrite Z2Qc_inj_0, Qcmult_0_l. apply Qcle_refl. }
  cbn [creditedMinutes].
  replace (Z.of_nat (pred (length (a :: b :: s))))
    with (1 + Z.of_nat (pred (length (b :: s)))) by (simpl; lia).
  rewrite Z2Qc_inj_add, Qcmult_plus_distr_l, Z2Qc_inj_1, Qcmult_1_l.
  apply Qcplus_le_compat; [apply credit_le_cap|exact IH].
Qed.

End estimate_bounds.

(** X2. Whatever the dates, [n] commits are estimated at no more than the
    bonus plus [n - 1] times the larger of the session threshold and the
    bonus. *)
Theorem estimateHours_capped cfg (h : store) dates l :
  h !! dates = Some l →
  ∃ hrs h',
    estimateHours cfg dates h = Some (hrs, h') ∧
    (hrs ≤ (Qc_of_Z (firstCommitAdditionInMinutes cfg)
            + Qc_of_Z (Z.of_nat (pred (length l)))
              * Qc_of_Z (Z.max (maxCommitDiffInMinutes cfg)
                               (firstCommitAdditionInMinutes cfg)))
           / Qc_of_Z 60)%Qc.
Proof.
  intros Hl. eexists _, _. split; [by apply estimateHours_Some|].
  rewrite hoursOfSorted_credited. apply Qcdiv_le_mono_60, Qcplus_le_mono_l.
  rewrite <-(Permutation_length (sortDates_Permutation l)).
  apply creditedMinutes_le_cap.
Qed.

Lemma estimateHours_capped_witness :
  ∃ hrs h',
    estimateHours config 1%positive {[1%positive := [7200000; 0; 600000]]}
    = Some (hrs, h') ∧
    (hrs ≤ (Qc_of_Z 30 + Qc_of_Z 2 * Qc_of_Z 60) / Qc_of_Z 60)%Qc.
Proof.
  apply (estimateHours_capped config _ _ [7200000; 0; 600000]). reflexivity.
Defined.

(** X4. A second call on the same array returns the same hours and leaves
    the store as the first call left it. *)
Theorem estimateHours_again cfg (h h' : store) dates hrs :
  estimateHours cfg dates h = Some (hrs, h') →
  estimateHours cfg dates h' = Some (hrs, h').
Proof.
  unfold estimateHours at 1. destruct (h !! dates) as [l|] eqn:Hl; [|done].
  simpl. rewrite lookup_insert_eq. simpl. intros [= <- <-].
  rewrite (estimateHours_Some cfg dates _ (sortDates l)) by apply lookup_insert_eq.
  rewrite insert_insert_eq.
  by rewrite <-(sortDates_unique (sortDates l) (sortDates l)
                  (reflexivity _) (sortDates_StronglySorted l)).
Qed.

Lemma estimateHours_again_witness :
  ∃ hrs h',
    estimateHours config 1%positive {[1%positive := [30; 10; 20]]} = Some (hrs, h') ∧
    estimateHours config 1%positive h' = Some (hrs, h').
Proof.
  destruct (estimateHours config 1%positive {[1%positive := [30; 10; 20]]})
    as [[hrs h']|] eqn:He; [|discriminate He].
  exists hrs, h'. split; [reflexivity|].
  exact (estimateHours_again config _ h' 1%positive hrs He).
Defined.

(** * Further properties of [getCommits] *)

Lemma elem_of_concat {A : Type} (ls : list (list A)) (x : A) :
  x ∈ concat ls ↔ ∃ l, x ∈ l ∧ l ∈ ls.
Proof.
  induction ls as [|l ls IH]; simpl.
  - split; [by intros ?%elem_of_nil|by intros (? & _ & ?%elem_of_nil)].
  - rewrite elem_of_app, IH. split.
    + intros [Hx|(l' & Hx & Hl')]; [exists l; split; [done|by left]|].
      exists l'. split; [done|by right].
    + intros (l' & Hx & [->|Hl']%elem_of_cons); [by left|].
      right. by exists l'.
Qed.

Section getCommits_facts.
Variable cfg : Config.

Lemma getBranchLatestCommit_found repo name :
  name ∈ getAllReferences repo → ∃ w, getBranchLatestCommit repo name = Ok w.
Proof.
  induction repo as [|[n w] repo IH]; simpl.
  - by intros ?%elem_of_nil.
  - intros Hin. case_decide as Hn; [by eexists|].
    apply IH. apply elem_of_cons in Hin as [?|?]; done.
Qed.

Lemma getBranchLatestCommit_elem_of repo name w :
  getBranchLatestCommit repo name = Ok w → (name, w) ∈ repo.
Proof.
  induction repo as [|[n w'] repo IH]; simpl; [done|].
  case_decide as Hn.
  - intros [= <-]. subst. by left.
  - intros H. right. by apply IH.
Qed.

Lemma getBranchLatestCommit_NoDup repo name w :
  NoDup (getAllReferences repo) → (name, w) ∈ repo →
  getBranchLatestCommit repo name = Ok w.
Proof.
  induction repo as [|[n w'] repo IH]; simpl.
  - by intros _ ?%elem_of_nil.
  - intros [Hn Hnd]%NoDup_cons [[= -> ->]|Hin]%elem_of_cons.
    + by rewrite decide_True.
    + rewrite decide_False; [by apply IH|].
      intros ->. apply Hn. apply list_elem_of_fmap. by exists (n, w).
Qed.

Lemma selectedReferences_elem_of repo branch name :
  name ∈ selectedReferences repo branch →
  name ∈ getAllReferences repo ∧ selectsReference branch name = true.
Proof. apply elem_of_List_filter. Qed.

(** The parts of a successful [getCommits]. *)
Lemma getCommits_Ok repo branch commits :
  getCommits cfg repo branch = Ok commits ↔
  ∃ latest perBranch,
    Forall2 (λ n w, getBranchLatestCommit repo n = Ok w)
      (selectedReferences repo branch) latest ∧
    Forall2 (λ w cs, getBranchCommits cfg w = Ok cs) latest perBranch ∧
    commits = List.filter (keepsMerge cfg) (uniq sha (concat perBranch)).
Proof.
  unfold getCommits, selectedReferences. split.
  - destruct (mapM (getBranchLatestCommit repo) _) as [latest|e] eqn:H1; simpl; [|done].
    destruct (mapM (getBranchCommits cfg) latest) as [perBranch|e] eqn:H2; simpl; [|done].
    intros [= <-]. exists latest, perBranch.
    by rewrite <-!mapM_Ok.
  - intros (latest & perBranch & H1%mapM_Ok & H2%mapM_Ok & ->).
    rewrite H1. simpl. by rewrite H2.
Qed.

Lemma getBranchCommits_Ok w cs :
  getBranchCommits cfg w = Ok cs ↔
  ∃ history, w = Ended history ∧
    cs = List.filter (λ c, isValidSince cfg c && isValidUntil cfg c) history.
Proof.
  destruct w as [history|history err]; simpl.
  - split; [intros [= <-]; by eexists|by intros (? & [= <-] & ->)].
  - split; [done|by intros (? & ? & _)].
Qed.

(** The commits of all walks, before [_.uniq]: each was emitted by the
    ended walk of a selected reference, within the range. *)
Lemma walked_emits repo branch latest perBranch c :
  Forall2 (λ n w, getBranchLatestCommit repo n = Ok w)
    (selectedReferences repo branch) latest →
  Forall2 (λ w cs, getBranchCommits cfg w = Ok cs) latest perBranch →
  c ∈ concat perBranch ↔ emits repo branch c ∧ inRange cfg c.
Proof.
  intros H1 H2. split.
  - intros (cs & Hc & Hcs)%elem_of_concat.
    apply list_elem_of_lookup in Hcs as [i Hi].
    destruct (Forall2_lookup_r _ _ _ _ _ H2 Hi) as (w & Hw & Hg).
    destruct (Forall2_lookup_r _ _ _ _ _ H1 Hw) as (n & Hn & Hl).
    apply getBranchCommits_Ok in Hg as (history & -> & ->).
    apply elem_of_List_filter in Hc as [Hc Hv%andb_true_iff].
    split; [|exact Hv]. exists n, history.
    split; [by eapply list_elem_of_lookup_2|done].
  - intros [(n & history & Hn & Hl & Hc) [Hs Hu]].
    apply list_elem_of_lookup in Hn as [i Hi].
    destruct (Forall2_lookup_l _ _ _ _ _ H1 Hi) as (w & Hw & Hl').
    destruct (Forall2_lookup_l _ _ _ _ _ H2 Hw) as (cs & Hcs & Hg).
    rewrite Hl in Hl'. injection Hl' as <-.
    apply getBranchCommits_Ok in Hg as (history' & [= <-] & ->).
    apply elem_of_concat. eexists. split; [|by eapply list_elem_of_lookup_2].
    apply elem_of_List_filter. by rewrite Hs, Hu.
Qed.
End getCommits_facts.

Lemma mapM_Err {A B : Type} (f : A → result B) (l : list A) (e : error) :
  mapM f l = Err e → ∃ a, a ∈ l ∧ f a = Err e.
Proof.
  induction l as [|a l IH]; simpl; [done|].
  destruct (f a) as [b|e'] eqn:Ha; simpl.
  - destruct (mapM f l) as [bs|e'']; simpl; [done|].
    intros [= ->]. destruct (IH eq_refl) as (a' & Ha' & He).
    exists a'. split; [by right|done].
  - intros [= ->]. exists a. split; [by left|done].
Qed.

Lemma Forall2_compose {A B C : Type} (P : A → B → Prop) (Q : B → C → Prop)
    (l : list A) (m : list B) (n : list C) :
  Forall2 P l m → Forall2 Q m n → Forall2 (λ a c, ∃ b, P a b ∧ Q b c) l n.
Proof.
  intros H. revert n. induction H as [|a b l m Hab _ IH]; intros n Hn.
  - apply Forall2_nil_inv_l in Hn as ->. constructor.
  - apply Forall2_cons_inv_l in Hn as (c & n' & Hbc & Hn' & ->).
    constructor; [by exists b|by apply IH].
Qed.

(** Looking up an id after a filter, in a list without double ids. *)
Lemma find_List_filter {A K : Type} `{EqDecision K} (f : A → K) (q : A → bool)
    (l : list A) (k : K) :
  NoDup (f <$> l) →
  List.find (λ x, bool_decide (f x = k)) (List.filter q l)
  = x ← List.find (λ x, bool_decide (f x = k)) l; if q x then Some x else None.
Proof.
  induction l as [|x l IH]; [done|]. rewrite fmap_cons.
  intros [Hx Hnd]%NoDup_cons. specialize (IH Hnd). simpl.
  destruct (q x) eqn:Hq; simpl; case_bool_decide as Hk; simpl.
  - by rewrite Hq.
  - exact IH.
  - rewrite Hq. destruct (List.find _ (List.filter q l)) as [y|] eqn:Hf; [|done].
    apply find_some in Hf as [Hy Hyk]. apply bool_decide_eq_true in Hyk.
    apply list_elem_of_In, elem_of_List_filter in Hy as [Hy _].
    destruct Hx. rewrite Hk, <-Hyk. by apply list_elem_of_fmap_2.
  - exact IH.
Qed.

(** C5. When [getCommits] resolves, its result is made of the lists that
    [getBranchCommits] gave for the selected references, merged in the
    order of the references: [uniqueCommits], of which the result is the
    part that passes the merge filter, has no commit id twice, has every
    id of the concatenated lists and only their commits, and holds under
    an id the first record with that id in the concatenation. So the
    result has no commit id twice, and holds under an id that first
    record, provided it passes the merge filter, and nothing else. *)
Theorem getCommits_keeps_first_occurrence cfg repo branch commits :
  getCommits cfg repo branch = Ok commits →
  ∃ perBranch uniqueCommits,
    Forall2 (λ name cs, ∃ w, getBranchLatestCommit repo name = Ok w ∧
                             getBranchCommits cfg w = Ok cs)
      (selectedReferences repo branch) perBranch ∧
    commits = List.filter (keepsMerge cfg) uniqueCommits ∧
    NoDup (sha <$> uniqueCommits) ∧
    (∀ c, c ∈ concat perBranch → sha c ∈ sha <$> uniqueCommits) ∧
    (∀ c, c ∈ uniqueCommits → c ∈ concat perBranch) ∧
    (∀ id, List.find (λ c, bool_decide (sha c = id)) uniqueCommits
           = List.find (λ c, bool_decide (sha c = id)) (concat perBranch)) ∧
    NoDup (sha <$> commits) ∧
    (∀ id, List.find (λ c, bool_decide (sha c = id)) commits
           = first ← List.find (λ c, bool_decide (sha c = id)) (concat perBranch);
             if keepsMerge cfg first then Some first else None).
Proof.
  intros Hget. pose proof (getCommits_NoDup _ _ _ _ Hget) as Hnd.
  apply getCommits_Ok in Hget as (latest & perBranch & H1 & H2 & ->).
  destruct (uniq_first_occurrence perBranch) as (Hu & Hcover & Hsub & Hfind).
  exists perBranch, (uniq sha (concat perBranch)).
  split; [by eapply Forall2_compose|]. split; [done|]. split; [done|].
  split; [done|]. split; [done|]. split; [done|]. split; [done|].
  intros id. by rewrite (find_List_filter sha _ _ id Hu), Hfind.
Qed.

Lemma getCommits_keeps_first_occurrence_witness :
  ∃ commits,
    getCommits config sharedRepo None = Ok commits ∧
    sha <$> commits = ["a3"; "b1"; "a2"; "a1"; "d1"] ∧
    NoDup (sha <$> commits).
Proof.
  destruct (getCommits config sharedRepo None) as [commits|e] eqn:Hget;
    [|discriminate Hget].
  exists commits. split; [reflexivity|].
  destruct (getCommits_keeps_first_occurrence config sharedRepo None commits Hget)
    as (_ & _ & _ & _ & _ & _ & _ & _ & Hnd & _).
  split; [|exact Hnd]. vm_compute in Hget. injection Hget as <-. reflexivity.
Defined.

(** X5. [getCommits] resolves exactly when the walk of every selected
    reference ends; when it is rejected, the error is the one of a selected
    walk that failed. Walks of references that are not selected play no
    part. *)
Theorem getCommits_resolves_iff cfg repo branch :
  ((∃ commits, getCommits cfg repo branch = Ok commits) ↔
   ∀ name, name ∈ selectedReferences repo branch →
     ∃ history, getBranchLatestCommit repo name = Ok (Ended history)) ∧
  (∀ e, getCommits cfg repo branch = Err e →
     ∃ name history err,
       name ∈ selectedReferences repo branch ∧
       getBranchLatestCommit repo name = Ok (Failed history err) ∧
       e = WalkError err).
Proof.
  assert (Hlatest : ∃ latest,
    mapM (getBranchLatestCommit repo) (selectedReferences repo branch) = Ok latest).
  { apply mapM_total, Forall_forall. intros name Hn.
    apply getBranchLatestCommit_found.
    by apply selectedReferences_elem_of in Hn as [? _]. }
  destruct Hlatest as [latest Hlatest].
  pose proof (proj1 (mapM_Ok _ _ _) Hlatest) as H1.
  split; [split|].
  - intros [commits (latest' & perBranch & H1' & H2 & _)%getCommits_Ok] name Hn.
    apply list_elem_of_lookup in Hn as [i Hi].
    destruct (Forall2_lookup_l _ _ _ _ _ H1' Hi) as (w & Hw & Hl).
    destruct (Forall2_lookup_l _ _ _ _ _ H2 Hw) as (cs & _ & Hg).
    apply getBranchCommits_Ok in Hg as (history & -> & _). by exists history.
  - intros Hall.
    destruct (mapM_total (getBranchCommits cfg) latest) as [perBranch H2].
    { apply Forall_forall. intros w Hw.
      apply list_elem_of_lookup in Hw as [i Hi].
      destruct (Forall2_lookup_r _ _ _ _ _ H1 Hi) as (n & Hn & Hl).
      destruct (Hall n) as [history Hh]; [by eapply list_elem_of_lookup_2|].
      rewrite Hl in Hh. injection Hh as ->. by eexists. }
    eexists. apply getCommits_Ok. exists latest, perBranch.
    split; [done|]. split; [by apply mapM_Ok|done].
  - intros e. unfold getCommits. fold (selectedReferences repo branch).
    rewrite Hlatest. simpl.
    destruct (mapM (getBranchCommits cfg) latest) as [perBranch|e'] eqn:H2; simpl; [done|].
    intros [= ->]. apply mapM_Err in H2 as (w & Hw & He).
    apply list_elem_of_lookup in Hw as [i Hi].
    destruct (Forall2_lookup_r _ _ _ _ _ H1 Hi) as (n & Hn & Hl).
    destruct w as [history|history err]; [done|].
    injection He as <-. exists n, history, err.
    split; [by eapply list_elem_of_lookup_2|done].
Qed.

(** X6. What [getCommits] resolves to: no commit id twice; only commits
    that the ended walk of a selected reference emitted, that pass both
    date tests and the merge filter; and for every such emitted commit in
    range, a commit of the same id that is in the result as soon as it
    passes the merge filter. *)
Theorem getCommits_exact cfg repo branch commits :
  getCommits cfg repo branch = Ok commits →
  NoDup (sha <$> commits) ∧
  (∀ c, c ∈ commits →
        emits repo branch c ∧ inRange cfg c ∧ keepsMerge cfg c = true) ∧
  (∀ c, emits repo branch c → inRange cfg c →
        ∃ c', sha c' = sha c ∧ emits repo branch c' ∧ inRange cfg c' ∧
              (keepsMerge cfg c' = true → c' ∈ commits)).
Proof.
  intros Hget. split; [by eapply getCommits_NoDup|].
  apply getCommits_Ok in Hget as (latest & perBranch & H1 & H2 & ->).
  pose proof (walked_emits cfg repo branch latest perBranch) as Hw.
  split.
  - intros c [Hc Hk]%elem_of_List_filter.
    apply elem_of_uniqFrom in Hc as [Hc _].
    apply (Hw c H1 H2) in Hc as [? ?]. done.
  - intros c He Hr.
    assert (Hc : c ∈ concat perBranch) by (by apply (Hw c H1 H2)).
    pose proof (uniqFrom_covers sha [] (concat perBranch) c Hc
                  (not_elem_of_nil _)) as Hs.
    apply list_elem_of_fmap in Hs as (c' & Hsha & Hc').
    exists c'. split; [done|].
    assert (Hc'' : c' ∈ concat perBranch) by (by apply elem_of_uniqFrom in Hc' as [? _]).
    apply (Hw c' H1 H2) in Hc'' as [? ?].
    split; [done|]. split; [done|].
    intros Hk. by apply elem_of_List_filter.
Qed.

Lemma getCommits_exact_witness :
  NoDup (sha <$> exampleCommits) ∧
  ∀ c, c ∈ exampleCommits → emits exampleRepo None c.
Proof.
  destruct (getCommits_exact config exampleRepo None exampleCommits) as (Hnd & Hs & _);
    [reflexivity|].
  split; [exact Hnd|]. intros c Hc. by destruct (Hs c Hc) as [? _].
Defined.

Lemma List_filter_singleton {A : Type} `{EqDecision A} (x : A) (l : list A) :
  NoDup l → x ∈ l → List.filter (λ y, bool_decide (y = x)) l = [x].
Proof.
  induction l as [|y l IH]; simpl.
  - by intros _ ?%elem_of_nil.
  - intros [Hy Hnd]%NoDup_cons Hx. case_bool_decide as Hyx.
    + subst y. f_equal. apply List_filter_none.
      intros z Hz. apply bool_decide_eq_false. by intros ->.
    + apply IH; [done|]. apply elem_of_cons in Hx as [?|?]; [by subst|done].
Qed.

(** X7. With reference names that are pairwise distinct, a branch
    restriction to an existing branch makes [getCommits] read the walk of
    that branch alone: the result is the filtered, deduplicated walk of
    [refs/heads/<branch>], or its error, whatever the other references
    are. *)
Theorem getCommits_single_branch cfg repo b w :
  NoDup (getAllReferences repo) →
  b ≠ "" →
  ("refs/heads/" +:+ b, w) ∈ repo →
  getCommits cfg repo (Some b)
  = (cs ← getBranchCommits cfg w; Ok (List.filter (keepsMerge cfg) (uniq sha cs))).
Proof.
  intros Hnd Hb Hw. unfold getCommits.
  assert (Hsel : List.filter (selectsReference (Some b)) (getAllReferences repo)
                 = ["refs/heads/" +:+ b]).
  { rewrite <-(List_filter_singleton ("refs/heads/" +:+ b) (getAllReferences repo) Hnd).
    - apply filter_ext. intros r. unfold selectsReference. by rewrite decide_False.
    - apply list_elem_of_fmap. by exists ("refs/heads/" +:+ b, w). }
  rewrite Hsel. simpl.
  rewrite (getBranchLatestCommit_NoDup repo _ w Hnd Hw). simpl.
  destruct (getBranchCommits cfg w) as [cs|e]; simpl; [|done].
  by rewrite app_nil_r.
Qed.

Lemma getCommits_single_branch_witness :
  let repo : Repository :=
    [("refs/heads/master", Ended exampleCommits);
     ("refs/heads/broken", Failed [] "unreadable")] in
  getCommits config repo (Some "master") = Ok exampleCommits.
Proof.
  intros repo.
  rewrite (getCommits_single_branch config repo "master" (Ended exampleCommits)).
  - reflexivity.
  - unfold repo, getAllReferences. simpl.
    apply NoDup_cons. split; [|apply NoDup_singleton].
    intros H%list_elem_of_singleton. discriminate H.
  - discriminate.
  - by left.
Defined.




(** X9. When [since] and [until] are instants that leave no millisecond
    strictly between them, every walk that ends yields no commit:
    [getCommits] resolves to the empty list and [extractData] to zero
    hours. *)
Theorem empty_window cfg repo commits s u :
  getCommits cfg repo (branch cfg) = Ok commits →
  since cfg = Instant s →
  until cfg = Instant u →
  u ≤ s + 1 →
  commits = [] ∧ extractData cfg repo = Ok (VNumber 0%Qc).
Proof.
  intros Hget Hs Hu Hus.
  assert (Hnil : commits = []).
  { pose proof Hget as (latest & perBranch & H1 & H2 & ->)%getCommits_Ok.
    destruct (List.filter _ _) as [|c cs] eqn:Hf; [done|exfalso].
    assert (Hc : c ∈ List.filter (keepsMerge cfg) (uniq sha (concat perBranch)))
      by (rewrite Hf; by left).
    apply elem_of_List_filter in Hc as [Hc _].
    apply elem_of_uniqFrom in Hc as [Hc _].
    apply (walked_emits cfg repo (branch cfg) latest perBranch c H1 H2) in Hc
      as [_ [Hvs Hvu]].
    apply isValidSince_true in Hvs as [Ha|(s' & Hs' & Hlt)].
    { unfold sinceAlways in Ha. by rewrite Hs in Ha. }
    apply isValidUntil_true in Hvu as [Ha|(u' & Hu' & Hgt)].
    { unfold untilAlways in Ha. by rewrite Hu in Ha. }
    rewrite Hs in Hs'. rewrite Hu in Hu'.
    injection Hs' as <-. injection Hu' as <-. lia. }
  split; [done|]. unfold extractData. rewrite Hget, Hnil. reflexivity.
Qed.

Lemma empty_window_witness :
  let cfg := mkConfig 60 30 (Instant 1000) (Instant 1000) true (Some ∅) None in
  getCommits cfg exampleRepo None = Ok [] ∧
  extractData cfg exampleRepo = Ok (VNumber 0%Qc).
Proof.
  intros cfg.
  destruct (empty_window cfg exampleRepo [] 1000 1000) as [_ He];
    [reflexivity|reflexivity|reflexivity|lia|].
  split; [reflexivity|exact He].
Defined.

(** * Further properties of the report *)

Lemma sum_list_fmap_plus {A : Type} (f g : A → nat) (l : list A) :
  sum_list ((λ x, f x + g x)%nat <$> l)
  = (sum_list (f <$> l) + sum_list (g <$> l))%nat.
Proof. induction l as [|x l IH]; csimpl; [done|]. rewrite IH. lia. Qed.

Lemma sum_list_indicator (k0 : string) (K : list string) :
  NoDup K →
  sum_list ((λ k, if bool_decide (k0 = k) then 1 else 0)%nat <$> K)
  = (if decide (k0 ∈ K) then 1 else 0)%nat.
Proof.
  induction 1 as [|k K Hk Hnd IH]; csimpl.
  - by destruct (decide (k0 ∈ [])) as [?%elem_of_nil|].
  - rewrite IH.
    destruct (decide (k0 ∈ K)) as [Hin|Hin],
      (decide (k0 ∈ k :: K)) as [Hin'|Hin']; case_bool_decide as Hk0;
      subst; try done; exfalso;
      first [ by (apply Hin'; right)
            | by (apply Hin'; left)
            | by (apply elem_of_cons in Hin' as [?|?]) ].
Qed.

Section partition_facts.
Context {A : Type} (iteratee : A → result string).

Lemma keyIs_Ok k k0 x :
  iteratee x = Ok k0 → keyIs iteratee k x = bool_decide (k0 = k).
Proof. intros Hx. unfold keyIs. by rewrite Hx. Qed.

(** Groups for pairwise distinct keys that cover the keys of all elements
    split the elements: their sizes add up. *)
Lemma group_sizes (K : list string) (l : list A) :
  NoDup K →
  Forall (λ x, ∃ k, k ∈ K ∧ iteratee x = Ok k) l →
  sum_list ((λ k, length (List.filter (keyIs iteratee k) l)) <$> K) = length l.
Proof.
  intros Hnd. induction 1 as [|x l (k0 & Hk0 & Hx) _ IH].
  - clear Hnd. induction K as [|k K IHK]; csimpl; done.
  - trans (sum_list ((λ k, (if bool_decide (k0 = k) then 1 else 0)
                           + length (List.filter (keyIs iteratee k) l))%nat <$> K)).
    + f_equal. apply list_fmap_ext. intros _ k _. simpl.
      rewrite (keyIs_Ok k k0 x Hx). by case_bool_decide.
    + rewrite (sum_list_fmap_plus (λ k, if bool_decide (k0 = k) then 1 else 0)%nat),
        (sum_list_indicator k0 K Hnd), IH.
      by destruct (decide (k0 ∈ K)).
Qed.

End partition_facts.

Lemma sum_list_zeros {A : Type} (l : list A) : sum_list ((λ _, 0%nat) <$> l) = 0%nat.
Proof. induction l as [|x l IH]; csimpl; [done|exact IH]. Qed.

Lemma occursIn_Permutation cfg commits commits' k :
  commits ≡ₚ commits' → occursIn cfg commits k ↔ occursIn cfg commits' k.
Proof. intros Hp. unfold occursIn. by setoid_rewrite Hp. Qed.

Lemma List_filter_length_lt {A : Type} (p : A → bool) (l : list A) (x : A) :
  x ∈ l → p x = false → (length (List.filter p l) < length l)%nat.
Proof.
  induction l as [|y l IH]; [by intros ?%elem_of_nil|].
  intros [->|Hx]%elem_of_cons Hp; simpl.
  - rewrite Hp. pose proof (List.filter_length_le p l). lia.
  - specialize (IH Hx Hp). destruct (p y); simpl; lia.
Qed.

Section partition_within.
Context {A : Type} (iteratee : A → result string).

(** The sizes of the groups for pairwise distinct keys add up to the
    number of elements with one of these keys. *)
Lemma group_sizes_within (K : list string) (l : list A) :
  NoDup K →
  sum_list ((λ k, length (List.filter (keyIs iteratee k) l)) <$> K)
  = length (List.filter (λ x, match iteratee x with
                              | Ok k => bool_decide (k ∈ K)
                              | Err _ => false
                              end) l).
Proof.
  intros Hnd. set (keyIn := λ x, match iteratee x with
                                 | Ok k => bool_decide (k ∈ K)
                                 | Err _ => false
                                 end).
  induction l as [|x l IH].
  - simpl. apply sum_list_zeros.
  - trans (sum_list ((λ k, (if keyIs iteratee k x then 1 else 0)
                           + length (List.filter (keyIs iteratee k) l))%nat <$> K)).
    { f_equal. apply list_fmap_ext. intros _ k _. simpl.
      by destruct (keyIs iteratee k x). }
    rewrite (sum_list_fmap_plus (λ k, if keyIs iteratee k x then 1 else 0)%nat), IH.
    simpl. unfold keyIn at 2, keyIs. destruct (iteratee x) as [k0|e].
    + rewrite (sum_list_indicator k0 K Hnd).
      destruct (decide (k0 ∈ K)).
      * by rewrite bool_decide_eq_true_2.
      * by rewrite bool_decide_eq_false_2.
    + by rewrite sum_list_zeros.
Qed.

Lemma group_sizes_lt (K : list string) (l : list A) (x : A) (k : string) :
  NoDup K → x ∈ l → iteratee x = Ok k → k ∉ K →
  (sum_list ((λ k, length (List.filter (keyIs iteratee k) l)) <$> K) < length l)%nat.
Proof.
  intros Hnd Hx Hk HK. rewrite (group_sizes_within K l Hnd).
  apply (List_filter_length_lt _ _ x Hx).
  rewrite Hk. by apply bool_decide_eq_false.
Qed.
End partition_within.

(** The counts of the author works, as a sum over their emails. *)
Lemma commits_by_email cfg commits ws :
  authorWorksOf cfg commits = Ok ws →
  sum_list (AuthorWork.commits <$> ws)
  = sum_list ((λ k, length (attributedTo cfg k commits)) <$> (AuthorWork.email <$> ws)).
Proof.
  intros (_ & _ & Hgroups & _)%authorWorksOf_spec.
  rewrite <-list_fmap_compose. f_equal.
  apply Forall_fmap_ext_1. eapply Forall_impl; [exact Hgroups|].
  by intros w [? _].
Qed.

(** Without the canonical email ["__proto__"], the author works split the
    commits. *)
Lemma authorWorks_split cfg commits ws :
  authorWorksOf cfg commits = Ok ws →
  Forall (λ c, canonicalEmail cfg c ≠ Ok "__proto__") commits →
  sum_list (AuthorWork.commits <$> ws) = length commits.
Proof.
  intros Hws Hno. rewrite (commits_by_email cfg commits ws Hws).
  destruct (authorWorksOf_spec cfg commits ws Hws) as (Hnd & _ & _ & Hcover).
  apply (group_sizes (canonicalEmail cfg)); [done|].
  apply Forall_forall. intros c Hc.
  pose proof (proj1 (Forall_forall _ _) (authorWorksOf_authored _ _ _ Hws) c Hc) as Ha.
  destruct (canonicalEmail_authored cfg c Ha) as [k Hk].
  exists k. split; [|done]. apply (Hcover Hno). by exists c.
Qed.

(** X10. When no canonical email is ["__proto__"], the author works split
    the commits: every commit is counted for exactly one author, so the
    [commits] of the author works add up to the number of commits, which
    is the [commits] of the total. *)
Theorem author_commits_add_up cfg commits authorWorks :
  authorWorksOf cfg commits = Ok authorWorks →
  Forall (λ c, canonicalEmail cfg c ≠ Ok "__proto__") commits →
  sum_list (AuthorWork.commits <$> authorWorks) = length commits ∧
  ∃ sortedWork total,
    sortedWorkOf cfg commits = Ok sortedWork ∧
    JsObject.get "total" sortedWork = Some total ∧
    Entry.commits total = sum_list (AuthorWork.commits <$> authorWorks).
Proof.
  intros Hws Hno.
  pose proof (authorWorks_split cfg commits authorWorks Hws Hno) as Hsum.
  split; [exact Hsum|]. eexists _, _.
  split; [by apply sortedWorkOf_Ok|]. split; [apply get_set_eq|]. by rewrite Hsum.
Qed.

Lemma author_commits_add_up_witness :
  ∃ authorWorks,
    authorWorksOf config exampleCommits = Ok authorWorks ∧
    sum_list (AuthorWork.commits <$> authorWorks) = 4%nat.
Proof.
  destruct (authorWorksOf config exampleCommits) as [ws|e] eqn:Hws;
    [|discriminate Hws].
  exists ws. split; [reflexivity|].
  refine (proj1 (author_commits_add_up config exampleCommits ws Hws _)).
  repeat constructor; intros H; vm_compute in H; discriminate H.
Defined.

(** X22. The commits whose canonical email is ["__proto__"] get no author
    work: when there is one and the report is built all the same, the
    [commits] of the author works add up to less than the number of
    commits, which the total still counts in full. *)
Theorem proto_commits_not_counted cfg commits authorWorks :
  authorWorksOf cfg commits = Ok authorWorks →
  occursIn cfg commits "__proto__" →
  ("__proto__" ∉ AuthorWork.email <$> authorWorks) ∧
  (sum_list (AuthorWork.commits <$> authorWorks) < length commits)%nat ∧
  ∃ sortedWork total,
    sortedWorkOf cfg commits = Ok sortedWork ∧
    JsObject.get "total" sortedWork = Some total ∧
    Entry.commits total = length commits.
Proof.
  intros Hws (c & Hc & Hk).
  destruct (authorWorksOf_spec cfg commits authorWorks Hws) as (Hnd & Hkeys & _).
  assert (Hnot : "__proto__" ∉ AuthorWork.email <$> authorWorks).
  { intros Hin. by destruct (Hkeys _ Hin) as [? _]. }
  split; [exact Hnot|]. split.
  - rewrite (commits_by_email cfg commits authorWorks Hws).
    by apply (group_sizes_lt (canonicalEmail cfg) _ commits c "__proto__").
  - eexists _, _. split; [by apply sortedWorkOf_Ok|]. by rewrite get_set_eq.
Qed.

Lemma proto_commits_not_counted_witness :
  let commits :=
    [mkCommit "p1" 0 "one" (Some (mkAuthor "Pat" "__proto__"));
     mkCommit "l1" 60000 "two" (Some (mkAuthor "Lee" "length"))] in
  let cfg := mkConfig 60 30 Always Always true None None in
  ∃ authorWorks,
    authorWorksOf cfg commits = Ok authorWorks ∧
    AuthorWork.email <$> authorWorks = ["length"] ∧
    (sum_list (AuthorWork.commits <$> authorWorks) < 2)%nat.
Proof.
  intros commits cfg.
  destruct (authorWorksOf cfg commits) as [ws|e] eqn:Hws; [|discriminate Hws].
  exists ws. split; [reflexivity|].
  destruct (proto_commits_not_counted cfg commits ws Hws) as (_ & Hlt & _).
  { eexists. split; [by left|reflexivity]. }
  split; [|exact Hlt]. injection Hws as <-. reflexivity.
Defined.

Lemma head_List_filter {A : Type} (p : A → bool) (l : list A) :
  head (List.filter p l) = List.find p l.
Proof. induction l as [|x l IH]; simpl; [done|]. by destruct (p x). Qed.

(** X11. An author work carries the name found on the first commit of the
    list, in the order in which [getCommits] gave it, that is attributed
    to its email; its hours are those of [estimateHours] on the dates of
    exactly the commits attributed to that email. *)
Theorem author_work_first_name cfg commits authorWorks w :
  authorWorksOf cfg commits = Ok authorWorks →
  w ∈ authorWorks →
  (∃ first a,
     List.find (keyIs (canonicalEmail cfg) (AuthorWork.email w)) commits = Some first ∧
     author first = Some a ∧
     AuthorWork.name w = name a) ∧
  (∀ (h : store) r,
     fst <$> estimateHours cfg r
       (<[r := date <$> attributedTo cfg (AuthorWork.email w) commits]> h)
     = Some (AuthorWork.hours w)).
Proof.
  intros Hws Hw.
  destruct (authorWorksOf_spec cfg commits authorWorks Hws) as (_ & _ & Hgroups & _).
  pose proof (proj1 (Forall_forall _ _) Hgroups w Hw) as (_ & Hh & first & a & Hf & Ha & Hn).
  split.
  - exists first, a. unfold attributedTo in Hf. by rewrite <-head_List_filter.
  - intros h r. rewrite estimateHours_plucked. simpl. by rewrite Hh.
Qed.

Lemma author_work_first_name_witness :
  let commits :=
    [mkCommit "e2" 1200000 "two" (Some (mkAuthor "Eve" "toString"));
     mkCommit "e1" 0 "one"
       (Some (mkAuthor "Eva" "function toString() { [native code] }"))] in
  ∃ w first,
    authorWorksOf config commits = Ok [w] ∧
    List.find (keyIs (canonicalEmail config) (AuthorWork.email w)) commits = Some first ∧
    AuthorWork.email w = "function toString() { [native code] }" ∧
    AuthorWork.name w = "Eve" ∧ AuthorWork.commits w = 2%nat ∧ sha first = "e2".
Proof.
  intros commits.
  destruct (authorWorksOf config commits) as [ws|e] eqn:Hws; [|discriminate Hws].
  assert (Hw : AuthorWork.mk "function toString() { [native code] }" "Eve"
                 (hoursOfSorted config (sortDates [1200000; 0])) 2 ∈ ws).
  { injection Hws as <-. by left. }
  destruct (author_work_first_name config commits ws _ Hws Hw)
    as [(first & a & Hf & Ha & Hn) _].
  eexists _, first. split; [injection Hws as <-; reflexivity|].
  split; [exact Hf|]. split; [reflexivity|]. split; [reflexivity|].
  split; [reflexivity|]. simpl in Hf. injection Hf as <-. reflexivity.
Defined.

Lemma List_filter_Permutation {A : Type} (p : A → bool) (l l' : list A) :
  l ≡ₚ l' → List.filter p l ≡ₚ List.filter p l'.
Proof.
  induction 1 as [|x l l' _ IH|x y l|l l' l'' _ IH1 _ IH2]; simpl.
  - done.
  - destruct (p x); [by f_equiv|done].
  - destruct (p x), (p y); try done. apply Permutation_swap.
  - by etrans.
Qed.

(** The hours of an author work, as a function of its email. *)
Lemma sumHours_by_email cfg commits ws :
  authorWorksOf cfg commits = Ok ws →
  sumHours ws
  = sumOf ((λ k, hoursOfSorted cfg (sortDates (date <$> attributedTo cfg k commits)))
           <$> (AuthorWork.email <$> ws)).
Proof.
  intros (_ & _ & Hgroups & _)%authorWorksOf_spec. unfold sumHours. f_equal.
  rewrite <-list_fmap_compose. apply Forall_fmap_ext_1.
  eapply Forall_impl; [exact Hgroups|]. by intros w (_ & ? & _).
Qed.

(** X12. The total does not depend on the order of the commits: two lists
    of commits with authors that are rearrangements of each other, for
    which ["length"] or ["0"] is a canonical email if ["__proto__"] is one,
    give the same total entry, hours and commits. *)
Theorem total_order_independent cfg commits commits' :
  commits ≡ₚ commits' →
  Forall (λ c, is_Some (author c)) commits →
  (occursIn cfg commits "__proto__" →
   occursIn cfg commits "length" ∨ occursIn cfg commits "0") →
  ∃ sortedWork sortedWork' total,
    sortedWorkOf cfg commits = Ok sortedWork ∧
    sortedWorkOf cfg commits' = Ok sortedWork' ∧
    JsObject.get "total" sortedWork = Some total ∧
    JsObject.get "total" sortedWork' = Some total.
Proof.
  intros Hp Hall Himp.
  destruct (proj2 (authorWorksOf_resolves cfg commits) (conj Hall Himp)) as [ws Hws].
  destruct (proj2 (authorWorksOf_resolves cfg commits')) as [ws' Hws'].
  { split; [by rewrite <-Hp|].
    rewrite <-!(occursIn_Permutation cfg commits commits' _ Hp). exact Himp. }
  eexists _, _, _.
  split; [by apply sortedWorkOf_Ok|]. split; [by apply sortedWorkOf_Ok|].
  split; [apply get_set_eq|]. rewrite get_set_eq. do 2 f_equal.
  - rewrite (sumHours_by_email cfg commits' ws' Hws'),
      (sumHours_by_email cfg commits ws Hws).
    destruct (authorWorksOf_spec cfg commits ws Hws) as (Hnd & _).
    destruct (authorWorksOf_spec cfg commits' ws' Hws') as (Hnd' & _).
    apply sumOf_Permutation.
    assert (Hfun : ∀ k,
      hoursOfSorted cfg (sortDates (date <$> attributedTo cfg k commits'))
      = hoursOfSorted cfg (sortDates (date <$> attributedTo cfg k commits))).
    { intros k. f_equal. apply sortDates_proper. unfold attributedTo.
      by rewrite (List_filter_Permutation _ _ _ Hp). }
    rewrite (list_fmap_ext _ _ (AuthorWork.email <$> ws') (λ _ k _, Hfun k)).
    apply fmap_Permutation. apply NoDup_Permutation; [done..|].
    intros k.
    rewrite (authorWorksOf_keys cfg commits ws Hws k),
      (authorWorksOf_keys cfg commits' ws' Hws' k).
    by rewrite !(occursIn_Permutation cfg commits commits' _ Hp).
  - symmetry. by apply Permutation_length.
Qed.

Lemma total_order_independent_witness :
  ∃ sortedWork sortedWork' total,
    sortedWorkOf config exampleCommits = Ok sortedWork ∧
    sortedWorkOf config (reverse exampleCommits) = Ok sortedWork' ∧
    JsObject.get "total" sortedWork = Some total ∧
    JsObject.get "total" sortedWork' = Some total.
Proof.
  apply (total_order_independent config exampleCommits (reverse exampleCommits)).
  - symmetry. apply reverse_Permutation.
  - repeat constructor; by eexists.
  - intros (c & Hc & Hk). exfalso.
    repeat (apply elem_of_cons in Hc as [->|Hc]; [vm_compute in Hk; discriminate Hk|]).
    by apply elem_of_nil in Hc.
Defined.

(** X13. [extractData] resolves exactly when [getCommits] resolves, every
    commit of its result has an author and, if ["__proto__"] is a
    canonical email, so is ["length"] or ["0"]. When it is rejected, the
    error is the one of [getCommits], or the TypeError of reading the email
    of a commit without author, or the TypeError of reading the author of
    the first commit of a group that is none. *)
Theorem extractData_resolves_iff cfg repo :
  ((∃ v, extractData cfg repo = Ok v) ↔
   ∃ commits, getCommits cfg repo (branch cfg) = Ok commits ∧
              Forall (λ c, is_Some (author c)) commits ∧
              (occursIn cfg commits "__proto__" →
               occursIn cfg commits "length" ∨ occursIn cfg commits "0")) ∧
  (∀ e, extractData cfg repo = Err e →
     getCommits cfg repo (branch cfg) = Err e ∨
     ∃ commits,
       getCommits cfg repo (branch cfg) = Ok commits ∧
       ((∃ c, c ∈ commits ∧ author c = None ∧
              e = TypeError "Cannot read property 'email' of null") ∨
        (occursIn cfg commits "__proto__" ∧
         ¬ occursIn cfg commits "length" ∧ ¬ occursIn cfg commits "0" ∧
         e = TypeError "Cannot read property 'author' of undefined"))).
Proof.
  unfold extractData.
  destruct (getCommits cfg repo (branch cfg)) as [commits|e0] eqn:Hget; simpl.
  - pose proof (authorWorksOf_cases cfg commits) as Hc.
    destruct (sortedWorkOf cfg commits) as [sortedWork|e1] eqn:Hs; simpl.
    + destruct (authorWorksOf cfg commits) as [ws|e1] eqn:Hws;
        [|unfold sortedWorkOf in Hs; by rewrite Hws in Hs].
      rewrite (sortedWorkOf_Ok cfg commits ws Hws) in Hs. injection Hs as <-.
      rewrite get_set_eq. split; [|done].
      split; [intros _; by exists commits|intros _; by eexists].
    + destruct (authorWorksOf cfg commits) as [ws|e2] eqn:Hws;
        [by rewrite (sortedWorkOf_Ok cfg commits ws Hws) in Hs|].
      unfold sortedWorkOf in Hs. rewrite Hws in Hs. injection Hs as <-. split.
      * split; [by intros [? ?]|].
        intros (commits' & [= <-] & Hall & Himp).
        destruct Hc as [(c & Hc & Ha & _)|(_ & Hp & Hl & H0 & _)].
        -- destruct (proj1 (Forall_forall _ _) Hall c Hc) as [a Ha']. congruence.
        -- destruct (Himp Hp); done.
      * intros e [= <-]. right. exists commits. split; [done|].
        destruct Hc as [?|(_ & ?)]; [by left|by right].
  - split; [|intros e [= <-]; by left].
    split; [by intros [? ?]|by intros (? & ? & _)].
Qed.

(** X14. When an author's canonical email is ["total"], storing the total
    replaces that author's entry: the report has one key per author and
    none besides, and under ["total"] it holds the total, without a name
    and with the number of all commits. *)
Theorem total_key_collision cfg commits authorWorks w :
  authorWorksOf cfg commits = Ok authorWorks →
  w ∈ authorWorks →
  AuthorWork.email w = "total" →
  ∃ sortedWork total,
    sortedWorkOf cfg commits = Ok sortedWork ∧
    JsObject.keys sortedWork
    = AuthorWork.email <$> sortBy AuthorWork.hours authorWorks ∧
    JsObject.get "total" sortedWork = Some total ∧
    Entry.name total = None ∧
    Entry.hours total = sumHours authorWorks ∧
    Entry.commits total = length commits.
Proof.
  intros Hws Hw Hemail. eexists _, _.
  split; [by apply sortedWorkOf_Ok|]. split; [|by rewrite get_set_eq].
  rewrite keys_set_present; [apply keys_entryOf|].
  rewrite keys_entryOf, <-Hemail. apply list_elem_of_fmap_2.
  by rewrite (sortBy_Permutation AuthorWork.hours authorWorks).
Qed.

Lemma total_key_collision_witness :
  let cfg := mkConfig 60 30 Always Always true
               (Some {["bob@example.org" := "total"]}) None in
  ∃ sortedWork,
    sortedWorkOf cfg exampleCommits = Ok sortedWork ∧
    JsObject.keys sortedWork = ["total"; "alice@example.org"].
Proof.
  intros cfg.
  destruct (authorWorksOf cfg exampleCommits) as [ws|e] eqn:Hws;
    [|discriminate Hws].
  assert (Hw : AuthorWork.mk "total" "Bob"
                 (hoursOfSorted cfg (sortDates [600 * 60000])) 1 ∈ ws).
  { injection Hws as <-. right. by left. }
  destruct (total_key_collision cfg exampleCommits ws _ Hws Hw eq_refl)
    as (sortedWork & total & Hs & Hk & _).
  exists sortedWork. split; [exact Hs|].
  rewrite Hk. injection Hws as <-. reflexivity.
Defined.

Lemma perAuthor_set_total (o : JsObject.t Entry.t) (total : Entry.t) :
  "total" ∉ JsObject.keys o → perAuthor (JsObject.set "total" total o) = o.
Proof.
  intros Hk. rewrite set_fresh by done. unfold perAuthor.
  rewrite List.filter_app. simpl. rewrite app_nil_r.
  induction o as [|[k e] o IH]; [done|]. simpl in *.
  apply not_elem_of_cons in Hk as [Hne Hk].
  rewrite bool_decide_eq_false_2 by done. simpl. by rewrite IH.
Qed.

(** X21. The invariants of the report, on the report itself: when every
    commit of the set that [getCommits] resolves to has an author and no
    canonical email is ["__proto__"] or ["total"], the entries of the
    report other than the total are those of the canonical emails that
    occur, each with the number of commits attributed to its email; the
    hours of the total are the sum of their hours, as [_.reduce] adds them
    and in any other order, its commits the sum of their commits and the
    size of the commit set, which has no commit id twice. *)
Theorem report_invariants_without_collision cfg repo commits :
  getCommits cfg repo (branch cfg) = Ok commits →
  Forall (λ c, is_Some (author c)) commits →
  Forall (λ c, canonicalEmail cfg c ≠ Ok "__proto__") commits →
  Forall (λ c, canonicalEmail cfg c ≠ Ok "total") commits →
  ∃ sortedWork total,
    sortedWorkOf cfg commits = Ok sortedWork ∧
    JsObject.get "total" sortedWork = Some total ∧
    NoDup (JsObject.keys sortedWork) ∧
    (∀ k, occursIn cfg commits k ↔ k ∈ JsObject.keys (perAuthor sortedWork)) ∧
    (∀ k e, (k, e) ∈ perAuthor sortedWork →
            Entry.commits e = length (attributedTo cfg k commits)) ∧
    Entry.hours total = totalHoursOf (perAuthor sortedWork) ∧
    Entry.hours total = sumOf ((λ kv, Entry.hours kv.2) <$> perAuthor sortedWork) ∧
    Entry.commits total
    = sum_list ((λ kv, Entry.commits kv.2) <$> perAuthor sortedWork) ∧
    Entry.commits total = length commits ∧
    NoDup (sha <$> commits).
Proof.
  intros Hget Hall Hno Htot.
  destruct (authorWorksOf_total cfg commits Hall Hno) as [ws Hws].
  destruct (authorWorksOf_spec cfg commits ws Hws) as (Hnd & Hkeys & Hgroups & Hcover).
  pose proof (sortBy_Permutation AuthorWork.hours ws) as Hp.
  assert (Hfresh : "total" ∉ JsObject.keys (entryOf <$> sortBy AuthorWork.hours ws)).
  { rewrite keys_entryOf, Hp. intros [_ (c & Hc & Hk)]%Hkeys.
    by destruct (proj1 (Forall_forall _ _) Htot c Hc). }
  eexists _, _. split; [by apply sortedWorkOf_Ok|]. split; [apply get_set_eq|].
  rewrite (perAuthor_set_total _ _ Hfresh). simpl.
  split; [|split; [|split; [|split; [|split; [|split; [|split]]]]]].
  - apply NoDup_keys_set. by rewrite keys_entryOf, Hp.
  - intros k. rewrite keys_entryOf, Hp.
    split; [apply (Hcover Hno)|by intros [_ ?]%Hkeys].
  - intros k e (w & [= -> ->] & Hw)%list_elem_of_fmap. rewrite Hp in Hw.
    by destruct (proj1 (Forall_forall _ _) Hgroups w Hw) as [? _].
  - rewrite totalHoursOf_entries. by apply sumHours_Permutation.
  - rewrite <-totalHoursOf_sumOf, totalHoursOf_entries.
    by apply sumHours_Permutation.
  - rewrite <-(authorWorks_split cfg commits ws Hws Hno), <-list_fmap_compose.
    by rewrite Hp.
  - done.
  - by eapply getCommits_NoDup.
Qed.

Lemma report_invariants_without_collision_witness :
  ∃ sortedWork total,
    sortedWorkOf config exampleCommits = Ok sortedWork ∧
    JsObject.get "total" sortedWork = Some total ∧
    JsObject.keys (perAuthor sortedWork) = ["bob@example.org"; "alice@example.org"] ∧
    Entry.hours total = sumOf ((λ kv, Entry.hours kv.2) <$> perAuthor sortedWork) ∧
    Entry.commits total = 4%nat.
Proof.
  destruct (report_invariants_without_collision config exampleRepo exampleCommits)
    as (sortedWork & total & Hs & Ht & _ & _ & _ & _ & Hh & _ & Hc & _).
  - reflexivity.
  - repeat constructor; by eexists.
  - repeat constructor; intros H; vm_compute in H; discriminate H.
  - repeat constructor; intros H; vm_compute in H; discriminate H.
  - exists sortedWork, total. split; [exact Hs|]. split; [exact Ht|].
    split; [|split; [exact Hh|exact Hc]].
    vm_compute in Hs. injection Hs as <-. reflexivity.
Defined.

(** * The command line front end *)

Section string_facts.
Implicit Types (s e a r : string) (c : Ascii.ascii).

Lemma String_length_append s r :
  String.length (s +:+ r) = (String.length s + String.length r)%nat.
Proof. induction s as [|x s IH]; [done|]. rewrite append_String. simpl. by rewrite IH. Qed.

Lemma indexOf_ge c s : -1 ≤ Cli.indexOf c s.
Proof.
  induction s as [|x s IH]; simpl; [lia|].
  repeat case_decide; lia.
Qed.

(** The first occurrence: behind a part without [c], the index of [c] is
    the length of that part. *)
Lemma indexOf_first c e a :
  Cli.indexOf c e = -1 →
  Cli.indexOf c (e +:+ String c a) = Z.of_nat (String.length e).
Proof.
  induction e as [|x e IH].
  - intros _. simpl. by rewrite decide_True.
  - rewrite append_String. simpl. case_decide as Hx; [done|].
    pose proof (indexOf_ge c e).
    case_decide as Hi; [|lia]. intros _.
    rewrite IH by lia. rewrite decide_False by lia. lia.
Qed.

Lemma String_substring_all s : String.substring 0 (String.length s) s = s.
Proof. induction s as [|x s IH]; [done|]. simpl. by rewrite IH. Qed.

Lemma String_substring_prefix e r :
  String.substring 0 (String.length e) (e +:+ r) = e.
Proof.
  induction e as [|x e IH]; [by destruct r|].
  rewrite append_String. simpl. by rewrite IH.
Qed.

Lemma String_substring_behind e c a m :
  String.substring (S (String.length e)) m (e +:+ String c a)
  = String.substring 0 m a.
Proof.
  induction e as [|x e IH]; [by destruct m|].
  rewrite append_String. simpl. exact IH.
Qed.

Lemma substring_before e c a :
  Cli.substring 0 (Z.of_nat (String.length e)) (e +:+ String c a) = e.
Proof.
  unfold Cli.substring, Cli.clamp. rewrite String_length_append. simpl.
  replace (Z.to_nat (Z.min (Z.max 0 0) _)) with 0%nat by lia.
  replace (Z.to_nat (Z.min (Z.max (Z.of_nat (String.length e)) 0) _))
    with (String.length e) by lia.
  rewrite Nat.min_0_l, Nat.max_0_l, Nat.sub_0_r.
  apply String_substring_prefix.
Qed.

Lemma substringFrom_behind e c a :
  Cli.substringFrom (Z.of_nat (String.length e) + 1) (e +:+ String c a) = a.
Proof.
  unfold Cli.substringFrom, Cli.substring, Cli.clamp.
  rewrite String_length_append. simpl.
  replace (Z.to_nat (Z.min (Z.max (Z.of_nat (String.length e) + 1) 0) _))
    with (S (String.length e)) by lia.
  replace (Z.to_nat (Z.min (Z.max (Z.of_nat (String.length e + S (String.length a))) 0) _))
    with (String.length e + S (String.length a))%nat by lia.
  rewrite Nat.min_l, Nat.max_r by lia.
  replace (String.length e + S (String.length a) - S (String.length e))%nat
    with (String.length a) by lia.
  rewrite String_substring_behind. apply String_substring_all.
Qed.
End string_facts.

(** X15. [parseEmailAlias] splits its argument at the first [=]: a
    non-empty part [e] without [=], then [=], then [a] (which may hold
    further [=]) makes the alias from the trimmed [e] to the trimmed [a],
    on top of the aliases set so far, and writes nothing. When the
    trimmed [e] is ["__proto__"], which the aliases do not own, the
    assignment stores nothing: the aliases are as before, but defined. An
    argument without [=], or with [=] in front, changes no alias and
    writes one error line. *)
Theorem parseEmailAlias_splits (trim : string → string) (st : Cli.State) :
  (∀ e a,
     e ≠ "" → Cli.indexOf Cli.equalsSign e = -1 →
     trim e ≠ "__proto__" →
     Cli.parseEmailAlias trim (Some (e +:+ "=" +:+ a)) st
     = Ok (Some (<[trim e := trim a]> (default ∅ st.1)), st.2)) ∧
  (∀ e a,
     e ≠ "" → Cli.indexOf Cli.equalsSign e = -1 →
     trim e = "__proto__" → default ∅ st.1 !! "__proto__" = None →
     Cli.parseEmailAlias trim (Some (e +:+ "=" +:+ a)) st
     = Ok (Some (default ∅ st.1), st.2)) ∧
  (∀ alias,
     Cli.indexOf Cli.equalsSign alias = -1 ∨ (∃ a, alias = "=" +:+ a) →
     Cli.parseEmailAlias trim (Some alias) st
     = Ok (st.1, st.2 ++ ["ERROR: Invalid alias: " +:+ alias])).
Proof.
  assert (Hsplit : ∀ e a,
    e ≠ "" → Cli.indexOf Cli.equalsSign e = -1 →
    Cli.parseEmailAlias trim (Some (e +:+ "=" +:+ a)) st
    = Ok (Some (if decide (trim e = "__proto__" ∧ default ∅ st.1 !! trim e = None)
                then default ∅ st.1
                else <[trim e := trim a]> (default ∅ st.1)), st.2)).
  { intros e a He Hno.
    change (e +:+ "=" +:+ a) with (e +:+ String Cli.equalsSign a).
    unfold Cli.parseEmailAlias.
    rewrite (indexOf_first Cli.equalsSign e a Hno).
    rewrite decide_True by (destruct e; [done|simpl; lia]).
    by rewrite substring_before, substringFrom_behind. }
  split; [|split].
  - intros e a He Hno Hne. rewrite (Hsplit e a He Hno).
    by rewrite decide_False by (by intros [? _]).
  - intros e a He Hno Heq Hown. rewrite (Hsplit e a He Hno).
    by rewrite decide_True by (by rewrite Heq).
  - intros alias Hbad. unfold Cli.parseEmailAlias.
    rewrite decide_False; [done|].
    destruct Hbad as [->|[a ->]]; [lia|]. simpl. lia.
Qed.

Lemma parseEmailAlias_splits_witness :
  Cli.parseEmailAlias id (Some "old@x.org=new@x.org") (None, [])
  = Ok (Some {["old@x.org" := "new@x.org"]}, []) ∧
  Cli.parseEmailAlias id (Some "__proto__=new@x.org") (None, [])
  = Ok (Some ∅, []) ∧
  Cli.parseEmailAlias id (Some "no-equals-sign") (None, [])
  = Ok (None, ["ERROR: Invalid alias: no-equals-sign"]).
Proof.
  destruct (parseEmailAlias_splits id (None, [])) as (Hok & Hproto & Hbad).
  split; [|split].
  - apply (Hok "old@x.org" "new@x.org"); [discriminate|reflexivity|discriminate].
  - apply (Hproto "__proto__" "new@x.org"); [discriminate|reflexivity..].
  - apply (Hbad "no-equals-sign"). left. reflexivity.
Defined.

Lemma parseEmailAlias_Some trim alias st :
  ∃ st', Cli.parseEmailAlias trim (Some alias) st = Ok st'.
Proof. unfold Cli.parseEmailAlias. case_decide; by eexists. Qed.

(** X16. The loop over the arguments throws exactly when the last argument
    is [-e] or [--email], which leaves the alias [undefined]; the exception
    is the TypeError of [alias.indexOf]. *)
Theorem emailArgs_throws_iff (trim : string → string) argv (st : Cli.State) :
  ((∃ e, Cli.emailArgs trim argv st = Err e) ↔
   ∃ k, last argv = Some k ∧ (k = "-e" ∨ k = "--email")) ∧
  (∀ e, Cli.emailArgs trim argv st = Err e →
        e = TypeError "Cannot read property 'indexOf' of undefined").
Proof.
  revert st. induction argv as [|k rest IH]; intros st.
  { split; [|done]. split; [by intros [? ?]|by intros (? & ? & _)]. }
  cbn [Cli.emailArgs]. destruct rest as [|k2 rest].
  - cbn [head last]. case_decide as Hk.
    + simpl. split; [|by intros e [= <-]].
      split; [intros _; by exists k|intros _; by eexists].
    + assert (Hok : ∃ st',
        (if String.prefix "--email=" k
         then Cli.parseEmailAlias trim
                (Some (Cli.substringFrom (Cli.indexOf Cli.equalsSign k + 1) k)) st
         else Ok st) = Ok st').
      { destruct (String.prefix _ _); [apply parseEmailAlias_Some|by eexists]. }
      destruct Hok as [st' ->]. simpl. split; [|done].
      split; [by intros [? ?]|]. intros (k' & [= <-] & Hk'). by destruct Hk.
  - assert (Hok : ∃ st',
      (if decide (k = "-e" ∨ k = "--email")
       then Cli.parseEmailAlias trim (head (k2 :: rest)) st
       else if String.prefix "--email=" k
            then Cli.parseEmailAlias trim
                   (Some (Cli.substringFrom (Cli.indexOf Cli.equalsSign k + 1) k)) st
            else Ok st) = Ok st').
    { case_decide; [apply parseEmailAlias_Some|].
      destruct (String.prefix _ _); [apply parseEmailAlias_Some|by eexists]. }
    destruct Hok as [st' ->]. simpl.
    change (last (k :: k2 :: rest)) with (last (k2 :: rest)). apply IH.
Qed.

(** X17. Arguments among which none is [-e], [--email] or begins with
    [--email=] leave the aliases as [mergeDefaultsWithArgs] returned them,
    which is [undefined]: the aliases of the [config] literal are not
    carried over, so with such arguments no alias exists when the commits
    are grouped. *)
Theorem resolveAliases_plain (trim : string → string) program conf argv :
  Forall Cli.plainArg argv →
  Cli.resolveAliases trim program conf argv = Ok (None, []).
Proof.
  intros Hplain. unfold Cli.resolveAliases. simpl.
  generalize (None : option (gmap string string), [] : list string).
  induction Hplain as [|k rest (Hk1 & Hk2 & Hk3) _ IH]; intros st; [done|].
  cbn [Cli.emailArgs]. rewrite decide_False by (by intros [?|?]).
  rewrite Hk3. simpl. apply IH.
Qed.

Lemma resolveAliases_plain_witness :
  Cli.resolveAliases id
    (Cli.Program.mk None None None None None None None (Some "master"))
    Cli.config ["node"; "git-hours"; "--branch"; "master"]
  = Ok (None, []).
Proof.
  apply resolveAliases_plain.
  repeat constructor; discriminate.
Defined.

(** X18. What the command line cannot set: a threshold or bonus of zero
    (zero and [NaN] fall back to the value of [conf]), and merge inclusion
    by anything but the exact string ["true"]. *)
Theorem mergeDefaultsWithArgs_fallbacks program conf :
  let merged := Cli.mergeDefaultsWithArgs program conf in
  (Cli.Conf.maxCommitDiffInMinutes merged = 0 →
   Cli.Conf.maxCommitDiffInMinutes conf = 0) ∧
  (Cli.Conf.firstCommitAdditionInMinutes merged = 0 →
   Cli.Conf.firstCommitAdditionInMinutes conf = 0) ∧
  (∀ s, Cli.Program.mergeRequest program = Some s →
        Cli.Conf.mergeRequest merged = true ↔ s = "true") ∧
  (Cli.Program.mergeRequest program = None →
   Cli.Conf.mergeRequest merged = Cli.Conf.mergeRequest conf).
Proof.
  simpl. unfold Cli.orNumber. split; [|split; [|split]].
  - destruct (Cli.Program.maxCommitDiff program) as [[|n]|]; try done.
    by case_decide.
  - destruct (Cli.Program.firstCommitAdd program) as [[|n]|]; try done.
    by case_decide.
  - intros s Hs. rewrite Hs. apply bool_decide_eq_true.
  - by intros ->.
Qed.

(** X19. The two ways of giving an alias agree: for a value [v] that the
    loop itself passes over, [-e v] (or [--email v]) and [--email=v] both
    come to one call of [parseEmailAlias] on [v]. *)
Theorem emailArgs_forms_agree (trim : string → string) v (st : Cli.State) :
  Cli.plainArg v →
  Cli.emailArgs trim ["-e"; v] st = Cli.parseEmailAlias trim (Some v) st ∧
  Cli.emailArgs trim ["--email"; v] st = Cli.parseEmailAlias trim (Some v) st ∧
  Cli.emailArgs trim ["--email=" +:+ v] st = Cli.parseEmailAlias trim (Some v) st.
Proof.
  intros (Hv1 & Hv2 & Hv3).
  assert (Hpair : ∀ k, k = "-e" ∨ k = "--email" →
    Cli.emailArgs trim [k; v] st = Cli.parseEmailAlias trim (Some v) st).
  { intros k Hk. cbn [Cli.emailArgs head].
    rewrite decide_True by done.
    destruct (parseEmailAlias_Some trim v st) as [st' ->]. simpl.
    rewrite decide_False by (by intros [?|?]). by rewrite Hv3. }
  split; [apply Hpair; by left|]. split; [apply Hpair; by right|].
  cbn [Cli.emailArgs]. rewrite decide_False by (intros [H|H]; discriminate H).
  rewrite (proj2 (String_prefix_append "--email=" ("--email=" +:+ v)))
    by (by exists v).
  change ("--email=" +:+ v) with ("--email" +:+ String Cli.equalsSign v).
  rewrite (indexOf_first Cli.equalsSign "--email" v) by reflexivity.
  rewrite (substringFrom_behind "--email" Cli.equalsSign v).
  by destruct (Cli.parseEmailAlias trim (Some v) st).
Qed.

Lemma emailArgs_forms_agree_witness :
  Cli.emailArgs id ["-e"; "a@x.org=b@x.org"] (None, [])
  = Cli.parseEmailAlias id (Some "a@x.org=b@x.org") (None, []).
Proof.
  apply (emailArgs_forms_agree id "a@x.org=b@x.org" (None, [])).
  repeat split; discriminate.
Defined.

Section uniq_order.
Context {A K : Type} `{EqDecision K} (iteratee : A → K).

Lemma uniqFrom_sublist seen l : uniqFrom iteratee seen l `sublist_of` l.
Proof.
  revert seen. induction l as [|x l IH]; intros seen; simpl; [done|].
  case_decide; [by apply sublist_cons|by apply sublist_skip].
Qed.

Lemma uniqFrom_NoDup seen l :
  NoDup (iteratee <$> l) → (∀ x, x ∈ l → iteratee x ∉ seen) →
  uniqFrom iteratee seen l = l.
Proof.
  revert seen. induction l as [|x l IH]; intros seen; csimpl; [done|].
  intros [Hx Hnd]%NoDup_cons Hseen.
  rewrite decide_False by (apply Hseen; by left). f_equal.
  apply IH; [done|]. intros y Hy [Heq|Hin]%elem_of_cons.
  - apply Hx. rewrite <-Heq. by apply list_elem_of_fmap_2.
  - apply (Hseen y); [by right|done].
Qed.
End uniq_order.

(** X20. Deduplication keeps the order of the walks: [uniqueCommits] is the
    concatenation with some commits left out, nothing moved; it is the
    concatenation itself when no id occurs twice, and deduplicating again
    changes nothing. *)
Theorem uniqueCommits_keeps_order (commits : list Commit) :
  uniq sha commits `sublist_of` commits ∧
  (NoDup (sha <$> commits) → uniq sha commits = commits) ∧
  uniq sha (uniq sha commits) = uniq sha commits.
Proof.
  unfold uniq. split; [apply uniqFrom_sublist|]. split.
  - intros Hnd. apply uniqFrom_NoDup; [done|]. intros x _. apply not_elem_of_nil.
  - apply uniqFrom_NoDup; [apply NoDup_uniqFrom|].
    intros x _. apply not_elem_of_nil.
Qed.
